(** * Crowdsourced sentiment analysis: the notebook's data preparation and
      baseline computations

    A shallow embedding of the code cells of
    [tutorials/crowdsourcing/Crowdsourced_Sentiment_Analysis-pandas.ipynb]:
    the gold filter and inner join, the class list [values], the per-tweet
    vote lists [wls], the label generator, the numeric gold labels, the
    majority-vote baseline and the per-worker accuracies.

    Data frames are lists of row records in row order, Python dictionaries
    keyed by strings are [gmap string _], an insertion-ordered [Counter] is an
    association list, and a Python exception is the [Raise] branch of
    [result]. *)

From stdpp Require Import base option list gmap strings pretty fin_maps sorting.
From Stdlib Require Import QArith.
Close Scope Q_scope.
Open Scope Z_scope.

(** ** Python exceptions *)

Inductive exn : Set := IndexError | KeyError | ValueError.

Inductive result (A : Type) : Type :=
| Ok (a : A)
| Raise (e : exn).
Arguments Ok {A} a.
Arguments Raise {A} e.

Definition bind {A B} (r : result A) (k : A → result B) : result B :=
  match r with
  | Ok a => k a
  | Raise e => Raise e
  end.

Notation "'let*' x ':=' r 'in' k" := (bind r (fun x => k))
  (at level 10, x name, r at level 100, k at level 200).

(** A [for] loop that appends one computed element per iteration; the first
    exception leaves the loop. *)
Fixpoint for_each {A B} (f : A → result B) (l : list A) : result (list B) :=
  match l with
  | [] => Ok []
  | x :: l' => let* y := f x in let* ys := for_each f l' in Ok (y :: ys)
  end.

(** [str(n)] of a Python integer. *)
Definition str (n : Z) : string := pretty n.

(** [pandas.Series.unique] and every other "distinct values, in order of
    first appearance": scan, append what has not been seen yet. *)
Definition unique `{EqDecision A} (l : list A) : list A :=
  fold_left (λ seen x, if decide (x ∈ seen) then seen else seen ++ [x]) l [].

(** [list.index(x)]: the position of the first element equal to [x],
    [ValueError] when there is none. *)
Fixpoint index `{EqDecision A} (x : A) (l : list A) : result nat :=
  match l with
  | [] => Raise ValueError
  | y :: l' => if decide (y = x) then Ok 0%nat
               else let* k := index x l' in Ok (S k)
  end.

(** ** Step 1: data loading (cell 7) *)

(** A row of [weather-non-agg-DFE.csv], restricted to the columns used. *)
Record raw_answer : Set := RawAnswer {
  tweet_id : Z;
  tweet_body : string;
  worker_id : Z;
  emotion : string
}.

(** A row of [weather-evaluated-agg-DFE.csv], restricted to the columns
    used.  The confidence is the number parsed from the file. *)
Record gold_crowd_answer : Set := GoldCrowdAnswer {
  gc_tweet_id : Z;
  gc_sentiment : string;
  gc_tweet_body : string;
  correct_category : string;
  correct_category_conf : Q
}.

(** A row of [gold_answers]: columns [tweet_id], [sentiment], [tweet_body]. *)
Record gold_answer : Set := GoldAnswer {
  g_tweet_id : Z;
  sentiment : string;
  g_tweet_body : string
}.

#[global] Instance raw_answer_eq_dec : EqDecision raw_answer.
Proof. solve_decision. Defined.
#[global] Instance gold_answer_eq_dec : EqDecision gold_answer.
Proof. solve_decision. Defined.

(** [gold_crowd_answers[[...]][(correct_category == 'Yes') &
    (correct_category_conf == 1)]] *)
Definition validated (g : gold_crowd_answer) : bool :=
  bool_decide (correct_category g = "Yes") && Qeq_bool (correct_category_conf g) 1.

Definition gold_answers (gold_crowd_answers : list gold_crowd_answer) : list gold_answer :=
  map (λ g, GoldAnswer (gc_tweet_id g) (gc_sentiment g) (gc_tweet_body g))
      (filter (λ g, validated g = true) gold_crowd_answers).

(** [raw.join(gold.set_index('tweet_id', drop=False), on=['tweet_id'],
    how='inner')] on the pandas of the notebook's kernel (Python 3.6, hence
    a pandas before 2.2): the hash join returns the rows key by key, the
    keys in the order of their first appearance in the left frame; for one
    key, every left row carrying it, in row order, paired with every right
    row carrying it, in row order. *)
Definition inner_join (left : list raw_answer) (right : list gold_answer)
  : list (raw_answer * gold_answer) :=
  unique (map tweet_id left) ≫= λ key,
    filter (λ r, tweet_id r = key) left ≫= λ r,
      map (λ g, (r, g)) (filter (λ g, g_tweet_id g = key) right).

(** The projection on [tweet_id.raw], [tweet_body.raw], [worker_id],
    [emotion] keeps the left half of every joined row. *)
Definition candidate_labeled_tweets (raw_crowd_answers : list raw_answer)
    (gold_crowd_answers : list gold_crowd_answer) : list raw_answer :=
  map fst (inner_join raw_crowd_answers (gold_answers gold_crowd_answers)).

(** ** Step 2: candidates, vote lists, gold labels *)

(** [values = list(candidate_labeled_tweets.emotion.unique())] (cell 11) *)
Definition values (clt : list raw_answer) : list string :=
  unique (map emotion clt).

(** A [Tweet] candidate as far as the notebook reads it: [c.tweet.name] and
    [c.split]. *)
Record Tweet : Set := mkTweet {
  name : string;
  split : Z
}.

(** [session.query(Tweet).filter(Tweet.split == split).order_by(Tweet.id)]:
    the stored candidates of one split, in the order of their ids. *)
Definition query_split (tweets : list Tweet) (s : Z) : list Tweet :=
  filter (λ t, split t = s) tweets.

(** [worker_labels = candidate_labeled_tweets[["tweet_id", "worker_id",
    "emotion"]]] (cell 20) keeps the rows; the columns read later are the
    three it names. *)
Definition worker_labels (clt : list raw_answer) : list raw_answer := clt.

(** [d[k]] on a [defaultdict(list)]: a missing key is first bound to the
    empty list. *)
Definition defaultdict_getitem {V} (d : gmap string (list V)) (k : string)
  : list V * gmap string (list V) :=
  match d !! k with
  | Some v => (v, d)
  | None => ([], <[k := []]> d)
  end.

(** One iteration of the loop of cell 22:
    [wls[str(row.tweet_id)].append((str(row.worker_id), row.emotion))]. *)
Definition wls_append (wls : gmap string (list (string * string))) (row : raw_answer)
  : gmap string (list (string * string)) :=
  let '(votes, wls') := defaultdict_getitem wls (str (tweet_id row)) in
  <[str (tweet_id row) := votes ++ [(str (worker_id row), emotion row)]]> wls'.

Definition build_wls (worker_labels : list raw_answer)
  : gmap string (list (string * string)) :=
  fold_left wls_append worker_labels ∅.

(** [worker_label_generator(t)] (cell 24): the pairs it yields, and the
    dictionary after the lookup. *)
Definition worker_label_generator (wls : gmap string (list (string * string)))
    (t : Tweet) : list (string * string) * gmap string (list (string * string)) :=
  defaultdict_getitem wls (name t).

(** [dict([(str(t.tweet_id), t.sentiment) for i, t in gold_answers[...]
    .iterrows()])] (cell 27): a later pair replaces an earlier one with the
    same key. *)
Definition verbose_labels (gold : list gold_answer) : gmap string string :=
  fold_left (λ d g, <[str (g_tweet_id g) := sentiment g]> d) gold ∅.

(** [d[k]] on a plain [dict]. *)
Definition dict_getitem {V} (d : gmap string V) (k : string) : result V :=
  match d !! k with
  | Some v => Ok v
  | None => Raise KeyError
  end.

(** [values.index(s) + 1] *)
Definition label_code (values : list string) (s : string) : result Z :=
  let* k := index s values in Ok (Z.of_nat k + 1).

(** The body of the inner loop of cell 28 for one candidate. *)
Definition gold_label (values : list string) (verbose_labels : gmap string string)
    (c : Tweet) : result Z :=
  let* s := dict_getitem verbose_labels (name c) in label_code values s.

(** Cell 28: split 0 first, then split 1; [gold_labels[split]] receives one
    code per candidate of the split. *)
Definition gold_labels (values : list string) (verbose_labels : gmap string string)
    (tweets : list Tweet) : result (list Z * list Z) :=
  let* g0 := for_each (gold_label values verbose_labels) (query_split tweets 0) in
  let* g1 := for_each (gold_label values verbose_labels) (query_split tweets 1) in
  Ok (g0, g1).

(** ** The label matrix *)

(** The sparse item-by-worker matrix seen through its entries: one list per
    row, one integer per column, [0] where nothing is stored (the matrix
    stores its non-zero entries, each row with increasing column indices);
    the column count is kept beside the rows, as a matrix without rows still
    has one. *)
Record matrix : Set := Matrix {
  rows : list (list Z);
  n_cols : nat
}.

(** [L.shape] *)
Definition shape (L : matrix) : nat * nat := (length (rows L), n_cols L).

(** [L[i]] and [L[i,j]], read inside the matrix's shape. *)
Definition matrix_row (L : matrix) (i : nat) : list Z := default [] (rows L !! i).

Definition matrix_get (L : matrix) (i j : nat) : Z :=
  default 0 (matrix_row L i !! j).

(** [L[i].nonzero()[1]]: the columns of the non-zero entries of row [i], in
    increasing order. *)
Definition nonzero_cols (row : list Z) : list nat :=
  filter (λ j, default 0 (row !! j) ≠ 0) (seq 0 (length row)).

(** [L[:,j]] and [L[:,j].nnz], the number of entries stored in column
    [j]. *)
Definition column (L : matrix) (j : nat) : list Z :=
  map (λ i, matrix_get L i j) (seq 0 (shape L).1).

Definition col_nnz (L : matrix) (j : nat) : nat :=
  length (filter (λ x, x ≠ 0) (column L j)).

(** ** Majority vote (cell 37) *)

(** [collections.Counter] on Python 3.6: a dictionary in insertion order. *)
Definition counter : Set := list (Z * nat).

(** [c[x] += 1]: an existing key keeps its place, a new key goes last. *)
Fixpoint counter_incr (x : Z) (c : counter) : counter :=
  match c with
  | [] => [(x, 1%nat)]
  | (k, n) :: c' => if decide (k = x) then (k, S n) :: c'
                    else (k, n) :: counter_incr x c'
  end.

(** [Counter(iterable)] *)
Definition Counter (l : list Z) : counter :=
  fold_left (λ c x, counter_incr x c) l [].

(** [max(items, key=itemgetter(1))] with a running best: a later item
    replaces the best one only when its count is strictly greater. *)
Fixpoint max_by_count (best : Z * nat) (items : counter) : Z * nat :=
  match items with
  | [] => best
  | it :: rest =>
      max_by_count (if decide (best.2 < it.2)%nat then it else best) rest
  end.

(** [c.most_common(1)]: the empty list for an empty counter, else the one
    item [max] selects. *)
Definition most_common_1 (c : counter) : list (Z * nat) :=
  match c with
  | [] => []
  | it :: rest => [max_by_count it rest]
  end.

(** [l[i]] on a Python list or numpy array, [0 <= i]. *)
Definition getitem {A} (l : list A) (i : nat) : result A :=
  match l !! i with
  | Some x => Ok x
  | None => Raise IndexError
  end.

(** The body of the loop for row [i]:
    [c = Counter([L[i,j] for j in L[i].nonzero()[1]])] and
    [c.most_common(1)[0][0]]. *)
Definition mv_at (L : matrix) (i : nat) : result Z :=
  let c := Counter (map (λ j, matrix_get L i j) (nonzero_cols (matrix_row L i))) in
  let* top := getitem (most_common_1 c) 0 in Ok top.1.

(** [mv]: one majority label per row, for [i] in [range(L.shape[0])]. *)
Definition mv (L : matrix) : result (list Z) :=
  for_each (mv_at L) (seq 0 (shape L).1).

(** ** Average worker accuracy (cell 40) *)

(** The value of a numpy float division, up to rounding: a finite quotient,
    or what IEEE arithmetic gives for a zero divisor. *)
Inductive np_float : Set :=
| Finite (q : Q)
| Inf
| NaN.

Definition np_div (n d : Z) : np_float :=
  if decide (d = 0) then (if decide (n = 0) then NaN else Inf)
  else Finite (Qmake n (Z.to_pos d)).

(** [np.sum([1 for i in range(L.shape[0]) if L[i,j] == labels[i]])] *)
Definition n_correct (L : matrix) (labels : list Z) (j : nat) : result Z :=
  let* hits := for_each (λ i, let* g := getitem labels i in
                               Ok (bool_decide (matrix_get L i j = g)))
                        (seq 0 (shape L).1) in
  Ok (Z.of_nat (length (filter (λ b, b = true) hits))).

(** [acc = n_correct / float(L[:,j].nnz)] *)
Definition acc (L : matrix) (labels : list Z) (j : nat) : result np_float :=
  let* n := n_correct L labels j in
  Ok (np_div n (Z.of_nat (col_nnz L j))).

(** [accs]: one accuracy per column, for [j] in [range(L.shape[1])]. *)
Definition accs (L : matrix) (labels : list Z) : result (list np_float) :=
  for_each (acc L labels) (seq 0 (shape L).2).

(** ** The label matrix builder *)

(** A vote: a worker's label code for an item. *)
Record vote : Set := Vote {
  item : string;
  worker : string;
  label : Z
}.

#[global] Instance vote_eq_dec : EqDecision vote.
Proof. solve_decision. Defined.

(** The data model's label codes: [1..K], zero being "no vote". *)
Definition valid_votes (K : Z) (votes : list vote) : Prop :=
  Forall (λ v, 1 ≤ label v ≤ K) votes.

(** No (item, worker) pair votes twice. *)
Definition no_duplicate_pairs (votes : list vote) : Prop :=
  NoDup (map (λ v, (item v, worker v)) votes).

(** The matrix together with the reverse mappings from a row index to its
    item and from a column index to its worker. *)
Record label_matrix : Set := LabelMatrix {
  row_items : list string;
  col_workers : list string;
  cells : matrix
}.

(** The votes of the pair (item, worker), in the order they were cast. *)
Definition votes_of_pair (votes : list vote) (i w : string) : list vote :=
  filter (λ v, item v = i ∧ worker v = w) votes.

(** The content of a cell: the label of the pair's first vote, zero when
    the pair has none. *)
Definition cell (votes : list vote) (i w : string) : Z :=
  match head (votes_of_pair votes i w) with
  | Some v => label v
  | None => 0
  end.

(** Modelled from the spec: [LabelAnnotator.apply], the label matrix builder
    of the snorkel library, whose code is not in the notebook.  Section 4.1:
    one row per distinct item, one column per distinct worker who voted, both
    in order of first appearance; a cell holds the label code of the vote of
    its pair and "no vote" (zero) otherwise; of the two policies the section
    allows for a pair that votes more than once, the first-seen vote is
    kept. *)
Definition build_label_matrix (votes : list vote) : label_matrix :=
  let items := unique (map item votes) in
  let workers := unique (map worker votes) in
  LabelMatrix items workers
    (Matrix (map (λ i, map (cell votes i) workers) items) (length workers)).

(** Modelled from the spec: the vote set re-derived from the non-zero
    entries of a label matrix (section 8, round trip), rows and columns
    mapped back to items and workers by position. *)
Definition votes_of_matrix (M : label_matrix) : list vote :=
  zip (row_items M) (rows (cells M)) ≫= λ '(i, row),
    zip (col_workers M) row ≫= λ '(w, x),
      if decide (x = 0) then [] else [Vote i w x].

(** Modelled from the spec: the codes the builder stores for the pairs a
    label generator yields, in the encoding of the gold labels (position in
    the class list plus one). *)
Definition encode_vote (values : list string) (t : Tweet) (wl : string * string)
  : result vote :=
  let* c := label_code values wl.2 in Ok (Vote (name t) wl.1 c).

(** Modelled from the spec: the coded votes the builder collects for the
    candidates of one split; the notebook's generator is called once per
    candidate, on the dictionary the previous call left. *)
Fixpoint split_votes (values : list string)
    (wls : gmap string (list (string * string))) (cands : list Tweet)
  : result (list vote) :=
  match cands with
  | [] => Ok []
  | t :: cands' =>
      let '(yielded, wls') := worker_label_generator wls t in
      let* vs := for_each (encode_vote values t) yielded in
      let* vs' := split_votes values wls' cands' in
      Ok (vs ++ vs')
  end.

(** ** Concrete inputs *)

(** The dense scenario of section 8: three items, three workers, codes 1
    and 2. *)
Definition scenario_votes : list vote :=
  [ Vote "item1" "w1" 1; Vote "item1" "w2" 1; Vote "item1" "w3" 2;
    Vote "item2" "w1" 2; Vote "item2" "w2" 2; Vote "item2" "w3" 2;
    Vote "item3" "w1" 1; Vote "item3" "w2" 2; Vote "item3" "w3" 1 ].

(** Worker 7 labels tweet 1 twice, with different emotions. *)
Definition conflicting_answers : list raw_answer :=
  [ RawAnswer 1 "sunny again" 7 "Positive";
    RawAnswer 1 "sunny again" 7 "Negative" ].

(** A row whose two votes tie: code 2 in column 0, code 1 in column 1. *)
Definition tied_row : list Z := [2; 1].

(** A matrix whose second row holds no vote. *)
Definition matrix_with_empty_row : matrix := Matrix [[1; 2]; [0; 0]; [2; 2]] 2.

(** Two raw answers, a validated gold row for tweet 1 only. *)
Definition two_raw_answers : list raw_answer :=
  [ RawAnswer 1 "sunny again" 7 "Positive";
    RawAnswer 2 "rain all day" 8 "Negative" ].

Definition one_gold_row : list gold_crowd_answer :=
  [ GoldCrowdAnswer 1 "Positive" "sunny again" "Yes" 1 ].

(** ** Vocabulary of the statements *)

(** The (worker, emotion) pairs recorded for the tweet whose id prints as
    [k], in the order of the rows. *)
Definition recorded_votes (frame : list raw_answer) (k : string)
  : list (string * string) :=
  map (λ r, (str (worker_id r), emotion r))
      (filter (λ r, str (tweet_id r) = k) frame).

(** No worker occurs with two different labels. *)
Definition conflict_free (pairs : list (string * string)) : Prop :=
  ∀ w e1 e2, (w, e1) ∈ pairs → (w, e2) ∈ pairs → e1 = e2.

(** [z] is one plus the position of [s] in the class list. *)
Definition position_code (values : list string) (s : string) (z : Z) : Prop :=
  ∃ k : nat, values !! k = Some s ∧ z = 1 + Z.of_nat k.

(** The code of a string by first appearance in an emotion column: one plus
    the number of distinct emotions that occur before the first occurrence
    of the string. *)
Definition first_appearance_code (emotions : list string) (s : string) (z : Z) : Prop :=
  ∃ pre post, emotions = pre ++ s :: post ∧ (s ∉ pre) ∧
              z = 1 + Z.of_nat (size (list_to_set pre : gset string)).

(** [z] encodes the gold sentiment of candidate [c]: the candidate has a
    gold sentiment string, and [z] is its code by first appearance in the
    emotion column, a code in [1..K] for [K] the number of distinct
    emotions. *)
Definition gold_code_of (emotions : list string) (verbose_labels : gmap string string)
    (c : Tweet) (z : Z) : Prop :=
  ∃ s, verbose_labels !! name c = Some s ∧ first_appearance_code emotions s z ∧
       1 ≤ z ≤ Z.of_nat (size (list_to_set emotions : gset string)).

(** The label of the vote [v] is the code, by first appearance in the
    emotion column of the frame, of an emotion the frame records for the
    vote's worker and tweet. *)
Definition vote_code_of (frame : list raw_answer) (v : vote) : Prop :=
  ∃ e, (worker v, e) ∈ recorded_votes frame (item v) ∧
       first_appearance_code (map emotion frame) e (label v).

(** The pairs the generator yields for the candidates, each with its
    candidate, in the order of the calls. *)
Definition candidate_votes (frame : list raw_answer) (cands : list Tweet)
  : list (Tweet * (string * string)) :=
  cands ≫= λ t, map (λ wl, (t, wl)) (recorded_votes frame (name t)).

(** [v] is the coded form of the pair [wl] yielded for candidate [t]. *)
Definition coded (values : list string) (twl : Tweet * (string * string)) (v : vote)
  : Prop :=
  item v = name twl.1 ∧ worker v = twl.2.1 ∧ label_code values twl.2.2 = Ok (label v).

(** The votes of a row: its non-zero entries, in column order. *)
Definition row_votes (row : list Z) : list Z := filter (λ x, x ≠ 0) row.

(** How often a label code occurs among some votes. *)
Definition count_of (x : Z) (votes : list Z) : nat :=
  length (filter (λ y, y = x) votes).

(** [l] is a vote and no label code occurs more often. *)
Definition most_frequent (votes : list Z) (l : Z) : Prop :=
  l ∈ votes ∧ ∀ x, (count_of x votes ≤ count_of l votes)%nat.

(** The tie-break "lowest label code wins". *)
Definition lowest_most_frequent (votes : list Z) (l : Z) : Prop :=
  most_frequent votes l ∧ ∀ x, most_frequent votes x → l ≤ x.

(** The tie-break "first seen wins": every code voted before the first
    vote for [l] occurs strictly less often than [l]. *)
Definition first_most_frequent (votes : list Z) (l : Z) : Prop :=
  most_frequent votes l ∧
  ∃ pre post, votes = pre ++ l :: post ∧ (l ∉ pre) ∧
              ∀ x, x ∈ pre → (count_of x votes < count_of l votes)%nat.

(** An item that sits first among the items of greatest count. *)
Definition first_max (items : counter) (it : Z * nat) : Prop :=
  ∃ pre post, items = pre ++ it :: post ∧
              (∀ a, a ∈ pre → (a.2 < it.2)%nat) ∧
              (∀ a, a ∈ post → (a.2 ≤ it.2)%nat).

(** A finite quotient: no division by zero took place. *)
Definition is_finite (a : np_float) : Prop := ∃ q, a = Finite q.

(** The dictionary holds, under every key, the votes recorded for it. *)
Definition wls_agrees (wls : gmap string (list (string * string)))
    (frame : list raw_answer) : Prop :=
  ∀ k, default [] (wls !! k) = recorded_votes frame k.

(** Modelled from the spec: [L_train = labeler.apply(split=0)] (cell 25),
    the call into the library's builder: the matrix built from the coded
    votes the generator yields for the candidates of split 0. *)
Definition L_train (values : list string)
    (wls : gmap string (list (string * string))) (tweets : list Tweet)
  : result label_matrix :=
  let* votes := split_votes values wls (query_split tweets 0) in
  Ok (build_label_matrix votes).

(** One candidate, named after tweet 1, in the training split. *)
Definition one_candidate : list Tweet := [mkTweet "1" 0].

(** A validated gold row whose sentiment no worker chose. *)
Definition unseen_gold_row : list gold_crowd_answer :=
  [ GoldCrowdAnswer 1 "I can't tell" "sunny again" "Yes" 1 ].

(** How many validated gold rows carry the tweet id [n]. *)
Definition validated_gold_count (gold : list gold_crowd_answer) (n : Z) : nat :=
  length (filter (λ g, validated g = true ∧ gc_tweet_id g = n) gold).

(** Two gold rows for tweet 1, both validated, with different sentiments. *)
Definition doubled_gold_rows : list gold_crowd_answer :=
  [ GoldCrowdAnswer 1 "Positive" "sunny again" "Yes" 1;
    GoldCrowdAnswer 1 "Negative" "sunny again" "Yes" 1 ].

(** ** Majority-vote accuracy (cell 37, after the loop) *)

(** [np.sum([1 for i in range(L.shape[0]) if mv[i] == labels[i]])] *)
Definition mv_n_correct (mv_labels labels : list Z) (n_rows : nat) : result Z :=
  let* hits := for_each (λ i, let* m := getitem mv_labels i in
                               let* g := getitem labels i in
                               Ok (bool_decide (m = g)))
                        (seq 0 n_rows) in
  Ok (Z.of_nat (length (filter (λ b, b = true) hits))).

(** The two numbers the cell prints: [n_correct / float(L.shape[0])] and
    [L.shape[0] - n_correct]. *)
Definition majority_vote_report (L : matrix) (labels : list Z)
  : result (np_float * Z) :=
  let* mv_labels := mv L in
  let* n := mv_n_correct mv_labels labels (shape L).1 in
  Ok (np_div n (Z.of_nat (shape L).1), Z.of_nat (shape L).1 - n).

(** A finite quotient between zero and one. *)
Definition in_unit_interval (a : np_float) : Prop :=
  ∃ q, a = Finite q ∧ (0 <= q)%Q ∧ (q <= 1)%Q.

(** ** Candidates (cells 15 and 16) *)

(** The joined frame with its index: [read_csv] numbers the raw answers
    from zero, and the join keeps, for every row it produces, the index
    label of the raw answer; the rows come in the order of [inner_join]. *)
Definition candidate_labeled_tweets_indexed (raw_crowd_answers : list raw_answer)
    (gold_crowd_answers : list gold_crowd_answer) : list (nat * raw_answer) :=
  unique (map tweet_id raw_crowd_answers) ≫= λ key,
    filter (λ ir, tweet_id ir.2 = key) (imap (λ i r, (i, r)) raw_crowd_answers) ≫= λ ir,
      map (λ _, ir) (filter (λ g, g_tweet_id g = key)
                            (gold_answers gold_crowd_answers)).

(** A row of [tweet_bodies]: the index label, then the columns [tweet_id]
    and [tweet_body]. *)
Definition body_row : Set := nat * (Z * string).

(** [candidate_labeled_tweets[["tweet_id", "tweet_body"]]] *)
Definition body_columns (frame : list (nat * raw_answer)) : list body_row :=
  map (λ ir, (ir.1, (tweet_id ir.2, tweet_body ir.2))) frame.

(** The order [sort_values("tweet_id")] promises: by tweet id. *)
Definition by_tweet_id : relation body_row := λ a b, a.2.1 ≤ b.2.1.

#[global] Instance by_tweet_id_dec : RelDecision by_tweet_id.
Proof. intros a b. unfold by_tweet_id. apply _. Defined.

(** [drop_duplicates()]: of the rows with equal columns the first one is
    kept, with its index label. *)
Definition drop_duplicates (l : list body_row) : list body_row :=
  fold_left (λ kept row, if decide (row.2 ∈ kept.*2) then kept else kept ++ [row]) l [].

(** [tweet_bodies] (cell 15).  The sort is pandas' default one, which is
    not stable: it is a parameter, of which the properties use that its
    result is a permutation of its argument ordered by tweet id. *)
Definition tweet_bodies (sort_values : list body_row → list body_row)
    (frame : list (nat * raw_answer)) : list body_row :=
  drop_duplicates (sort_values (body_columns frame)).

(** The loop of cell 16: one candidate per row of [tweet_bodies], named
    after the tweet id; [i <= total_tweets*0.1] compares the index label
    with a tenth of the number of rows (the double product and the exact
    tenth admit the same integers for every frame of fewer than 2^50 rows).
    The session returns the candidates in the order they were added. *)
Definition tweet_list (sort_values : list body_row → list body_row)
    (frame : list (nat * raw_answer)) : list Tweet :=
  let total_tweets := length (tweet_bodies sort_values frame) in
  map (λ row : body_row,
         mkTweet (str row.2.1)
                 (if decide (10 * Z.of_nat row.1 ≤ Z.of_nat total_tweets) then 1 else 0))
      (tweet_bodies sort_values frame).

(** A sort that meets the promise. *)
Definition sort_by_tweet_id : list body_row → list body_row :=
  merge_sort by_tweet_id.

(** Three raw answers on two tweets, the second tweet first. *)
Definition three_raw_answers : list raw_answer :=
  [ RawAnswer 2 "rain all day" 8 "Negative";
    RawAnswer 1 "sunny again" 7 "Positive";
    RawAnswer 2 "rain all day" 9 "Negative" ].

Definition two_gold_rows : list gold_crowd_answer :=
  [ GoldCrowdAnswer 1 "Positive" "sunny again" "Yes" 1;
    GoldCrowdAnswer 2 "Negative" "rain all day" "Yes" 1 ].

(** Two candidates, named after tweets 1 and 2, in the training and the
    development split. *)
Definition two_candidates : list Tweet := [mkTweet "1" 0; mkTweet "2" 1].

(** A candidate named after a tweet without gold row. *)
Definition unknown_candidate : list Tweet := [mkTweet "2" 0].

(** A row in which code 2 has two of the three votes. *)
Definition matrix_with_mode : matrix := Matrix [[1; 2; 2]] 3.

(** A matrix whose second column stores no vote. *)
Definition matrix_with_empty_column : matrix := Matrix [[1; 0]; [2; 0]] 2.

(** ** Mean accuracy (cell 40, last line) *)

(** The sum of two numpy floats that are not negative, up to rounding. *)
Definition np_add (a b : np_float) : np_float :=
  match a, b with
  | NaN, _ | _, NaN => NaN
  | Inf, _ | _, Inf => Inf
  | Finite p, Finite q => Finite (p + q)
  end.

(** [np.mean(accs)]: the sum divided by the number of elements; the mean of
    no element is the quotient of zero by zero. *)
Definition np_mean (l : list np_float) : np_float :=
  match l with
  | [] => NaN
  | _ :: _ =>
      match fold_left np_add l (Finite 0) with
      | Finite q => Finite (q / inject_Z (Z.of_nat (length l)))
      | Inf => Inf
      | NaN => NaN
      end
  end.

(** The value the cell prints. *)
Definition mean_accuracy (L : matrix) (labels : list Z) : result np_float :=
  let* accuracies := accs L labels in Ok (np_mean accuracies).

(** * Properties *)

(** ** Loops and exceptions *)

Lemma for_each_app {A B} (f : A → result B) (l1 l2 : list A) :
  for_each f (l1 ++ l2) =
  let* ys1 := for_each f l1 in let* ys2 := for_each f l2 in Ok (ys1 ++ ys2).
Proof.
  induction l1 as [|x l1 IH]; simpl.
  - destruct (for_each f l2); reflexivity.
  - destruct (f x); simpl; [|reflexivity].
    rewrite IH. destruct (for_each f l1); simpl; [|reflexivity].
    destruct (for_each f l2); reflexivity.
Qed.

(** A loop whose every iteration returns, returns. *)
Lemma for_each_ok {A B} (f : A → result B) (g : A → B) (l : list A) :
  (∀ x, x ∈ l → f x = Ok (g x)) → for_each f l = Ok (map g l).
Proof.
  induction l as [|x l IH]; intros Hf; simpl; [reflexivity|].
  rewrite (Hf x) by left. simpl.
  rewrite IH; [reflexivity|]. intros y Hy. apply Hf. by right.
Qed.

(** A loop that returns has run every iteration to its end. *)
Lemma for_each_inv {A B} (f : A → result B) (l : list A) (ys : list B) :
  for_each f l = Ok ys → Forall2 (λ x y, f x = Ok y) l ys.
Proof.
  revert ys. induction l as [|x l IH]; intros ys; simpl.
  - intros [= <-]. constructor.
  - destruct (f x) as [y|] eqn:Hx; simpl; [|discriminate].
    destruct (for_each f l) as [ys'|]; simpl; [|discriminate].
    intros [= <-]. constructor; [assumption|]. by apply IH.
Qed.

(** A loop raises exactly when one of its iterations does. *)
Lemma for_each_raise_iff {A B} (f : A → result B) (l : list A) :
  (∃ e, for_each f l = Raise e) ↔ ∃ x e, x ∈ l ∧ f x = Raise e.
Proof.
  induction l as [|x l IH]; simpl.
  - split; [intros [e [=]]|]. intros (x & e & Hx & _). by apply elem_of_nil in Hx.
  - destruct (f x) as [y|e0] eqn:Hx; simpl.
    + destruct (for_each f l) as [ys|e1]; simpl.
      * split; [intros [e [=]]|]. intros (x' & e & Hin & Hr).
        apply elem_of_cons in Hin as [->|Hin]; [congruence|].
        destruct IH as [_ IH]. destruct IH as [e' He']; [eauto|discriminate].
      * split; [|eauto]. intros _. destruct IH as [IH _].
        destruct IH as (x' & e & Hin & Hr); [eauto|].
        exists x', e. split; [by right|assumption].
    + split; [|eauto]. intros _. exists x, e0. split; [left|assumption].
Qed.

(** The exception a loop raises is the one an iteration raised. *)
Lemma for_each_raise_inv {A B} (f : A → result B) (l : list A) (e : exn) :
  for_each f l = Raise e → ∃ x, x ∈ l ∧ f x = Raise e.
Proof.
  induction l as [|x l IH]; simpl; [discriminate|].
  destruct (f x) as [y|e0] eqn:Hx; simpl.
  - destruct (for_each f l) as [ys|e1]; simpl; [discriminate|].
    intros [= <-]. destruct IH as (x' & Hin & Hr); [done|].
    exists x'. split; [by right|done].
  - intros [= <-]. exists x. split; [left|done].
Qed.

(** When every iteration that raises, raises [e], so does the loop. *)
Lemma for_each_raises {A B} (f : A → result B) (l : list A) (e : exn) :
  (∃ x, x ∈ l ∧ f x = Raise e) →
  (∀ x e', x ∈ l → f x = Raise e' → e' = e) →
  for_each f l = Raise e.
Proof.
  intros (x & Hin & Hx) Hall.
  destruct (for_each_raise_iff f l) as [_ H].
  destruct H as [e' He']; [eauto|].
  rewrite He'. f_equal.
  apply for_each_raise_inv in He' as (x' & Hin' & Hx'). eauto.
Qed.

(** A loop whose every iteration returns, returns. *)
Lemma for_each_total {A B} (f : A → result B) (l : list A) :
  (∀ x, x ∈ l → ∃ y, f x = Ok y) → ∃ ys, for_each f l = Ok ys.
Proof.
  intros Hf. destruct (for_each f l) as [ys|e] eqn:Hfe; [eauto|].
  apply for_each_raise_inv in Hfe as (x & Hx & Hr).
  destruct (Hf x Hx) as [y Hy]. congruence.
Qed.

(** ** Distinct values in order of first appearance *)

Section unique.
Context `{EqDecision A}.
Implicit Types (l : list A) (x : A).

Lemma unique_snoc l x :
  unique (l ++ [x]) = if decide (x ∈ unique l) then unique l else unique l ++ [x].
Proof. unfold unique. by rewrite fold_left_app. Qed.

Lemma elem_of_unique l x : x ∈ unique l ↔ x ∈ l.
Proof.
  induction l as [|y l IH] using rev_ind.
  - reflexivity.
  - rewrite unique_snoc, elem_of_app, list_elem_of_singleton.
    destruct (decide (y ∈ unique l)) as [Hy|Hy].
    + split; [tauto|]. intros [?| ->]; tauto.
    + rewrite elem_of_app, list_elem_of_singleton. tauto.
Qed.

Lemma NoDup_unique l : NoDup (unique l).
Proof.
  induction l as [|y l IH] using rev_ind.
  - constructor.
  - rewrite unique_snoc. destruct (decide (y ∈ unique l)) as [Hy|Hy]; [assumption|].
    apply NoDup_app. split_and!; [assumption| |apply NoDup_singleton].
    intros z Hz Hz'. apply list_elem_of_singleton in Hz'. by subst.
Qed.

(** The scan only ever appends. *)
Lemma unique_app_prefix l1 l2 : ∃ ext, unique (l1 ++ l2) = unique l1 ++ ext.
Proof.
  induction l2 as [|y l2 IH] using rev_ind.
  - exists []. by rewrite !app_nil_r.
  - destruct IH as [ext IH]. rewrite app_assoc, unique_snoc, IH.
    destruct (decide _); [by exists ext|].
    exists (ext ++ [y]). by rewrite app_assoc.
Qed.

(** A value keeps the place of its first occurrence. *)
Lemma unique_first_occurrence l1 l2 x :
  x ∉ l1 → ∃ ext, unique (l1 ++ x :: l2) = unique l1 ++ x :: ext.
Proof.
  intros Hx. replace (l1 ++ x :: l2) with ((l1 ++ [x]) ++ l2)
    by (by rewrite <- app_assoc).
  destruct (unique_app_prefix (l1 ++ [x]) l2) as [ext ->].
  rewrite unique_snoc. rewrite decide_False by (by rewrite elem_of_unique).
  exists ext. by rewrite <- app_assoc.
Qed.

Lemma unique_nil_inv l : unique l = [] → l = [].
Proof.
  destruct l as [|x l]; [done|]. intros H.
  assert (x ∈ unique (x :: l)) as Hx by (apply elem_of_unique; left).
  rewrite H in Hx. by apply elem_of_nil in Hx.
Qed.
End unique.

(** ** [list.index] *)

Lemma index_ok `{EqDecision A} (x : A) (l : list A) (k : nat) :
  index x l = Ok k ↔ l !! k = Some x ∧ x ∉ take k l.
Proof.
  revert k. induction l as [|y l IH]; intros k; simpl.
  - split; [discriminate|]. intros [[=] _].
  - destruct (decide (y = x)) as [->|Hne].
    + split.
      * intros [= <-]. split; [done|]. simpl. apply not_elem_of_nil.
      * intros [Hk Hnot]. destruct k as [|k]; [done|].
        exfalso. apply Hnot. simpl. left.
    + destruct (index x l) as [k'|e] eqn:Hi; simpl.
      * split.
        -- intros [= <-]. destruct (IH k') as [IH' _].
           destruct IH' as [Hk Hnot]; [done|]. split; [done|].
           simpl. rewrite not_elem_of_cons. split; [congruence|done].
        -- intros [Hk Hnot]. destruct k as [|k]; [simpl in Hk; congruence|].
           simpl in Hk, Hnot. apply not_elem_of_cons in Hnot as [_ Hnot].
           f_equal. f_equal. destruct (IH k) as [_ IH'].
           specialize (IH' (conj Hk Hnot)). congruence.
      * split; [discriminate|]. intros [Hk Hnot].
        destruct k as [|k]; [simpl in Hk; congruence|].
        simpl in Hk, Hnot. apply not_elem_of_cons in Hnot as [_ Hnot].
        destruct (IH k) as [_ IH']. specialize (IH' (conj Hk Hnot)). discriminate.
Qed.

Lemma index_raise `{EqDecision A} (x : A) (l : list A) (e : exn) :
  index x l = Raise e ↔ (x ∉ l) ∧ e = ValueError.
Proof.
  induction l as [|y l IH]; simpl.
  - split; [intros [= <-]; split; [apply not_elem_of_nil|done]|].
    by intros [_ ->].
  - destruct (decide (y = x)) as [->|Hne].
    + split; [discriminate|]. intros [Hnot _]. exfalso. apply Hnot. left.
    + rewrite not_elem_of_cons. destruct (index x l) as [k|e']; simpl.
      * split; [discriminate|]. intros [[_ Hnot] He].
        destruct IH as [_ IH]. by specialize (IH (conj Hnot He)).
      * split.
        -- intros [= <-]. destruct IH as [IH _].
           destruct IH as [Hnot He]; [done|]. split; [split; [congruence|done]|done].
        -- intros [[_ Hnot] He]. destruct IH as [_ IH].
           by specialize (IH (conj Hnot He)).
Qed.

(** ** The gold filter and the inner join *)

Lemma elem_of_gold_answers (gold : list gold_crowd_answer) (g : gold_answer) :
  g ∈ gold_answers gold ↔
  ∃ gc, gc ∈ gold ∧ correct_category gc = "Yes" ∧
        (correct_category_conf gc == 1)%Q ∧
        g = GoldAnswer (gc_tweet_id gc) (gc_sentiment gc) (gc_tweet_body gc).
Proof.
  unfold gold_answers. rewrite list_elem_of_fmap. split.
  - intros (gc & -> & Hin). apply list_elem_of_filter in Hin as [Hv Hin].
    unfold validated in Hv. apply andb_prop in Hv as [Hy Hc].
    apply bool_decide_eq_true in Hy. apply Qeq_bool_iff in Hc.
    exists gc. done.
  - intros (gc & Hin & Hy & Hc & ->). exists gc. split; [done|].
    apply list_elem_of_filter. split; [|done].
    unfold validated. apply andb_true_intro. split.
    + by apply bool_decide_eq_true.
    + by apply Qeq_bool_iff.
Qed.

Lemma elem_of_inner_join (left : list raw_answer) (right : list gold_answer)
    (r : raw_answer) (g : gold_answer) :
  (r, g) ∈ inner_join left right ↔
  r ∈ left ∧ g ∈ right ∧ g_tweet_id g = tweet_id r.
Proof.
  unfold inner_join. rewrite list_elem_of_bind. split.
  - intros (key & Hin & _). apply list_elem_of_bind in Hin as (r' & Hin & Hr').
    apply list_elem_of_fmap in Hin as (g' & [= -> ->] & Hg).
    apply list_elem_of_filter in Hg as [Hid Hg].
    apply list_elem_of_filter in Hr' as [Hid' Hr']. split_and!; [done..|congruence].
  - intros (Hr & Hg & Hid). exists (tweet_id r). split.
    + apply list_elem_of_bind. exists r. split; [|by apply list_elem_of_filter].
      apply list_elem_of_fmap. exists g. split; [done|].
      by apply list_elem_of_filter.
    + apply elem_of_unique. exact (list_elem_of_fmap_2 tweet_id left r Hr).
Qed.

Lemma elem_of_candidate_labeled_tweets (raw : list raw_answer)
    (gold : list gold_crowd_answer) (r : raw_answer) :
  r ∈ candidate_labeled_tweets raw gold ↔
  r ∈ raw ∧ ∃ g, g ∈ gold_answers gold ∧ g_tweet_id g = tweet_id r.
Proof.
  unfold candidate_labeled_tweets. rewrite list_elem_of_fmap. split.
  - intros ([r' g] & -> & Hin). apply elem_of_inner_join in Hin as (? & ? & ?).
    simpl. eauto.
  - intros (Hr & g & Hg & Hid). exists (r, g). split; [done|].
    by apply elem_of_inner_join.
Qed.

(** C6: a raw answer is among the candidate votes exactly when it is a raw
    answer whose tweet has a gold row with [correct_category = "Yes"] and
    confidence 1, so every vote on a tweet without validated gold is left
    out; and every row the join keeps pairs the answer with a gold row that
    is in the filtered gold records and carries the answer's tweet id, never
    with a made-up one. *)
Theorem join_keeps_validated_only (raw : list raw_answer)
    (gold : list gold_crowd_answer) :
  (∀ r, r ∈ candidate_labeled_tweets raw gold ↔
        r ∈ raw ∧ ∃ gc, gc ∈ gold ∧ gc_tweet_id gc = tweet_id r ∧
                        correct_category gc = "Yes" ∧
                        (correct_category_conf gc == 1)%Q) ∧
  (∀ r g, (r, g) ∈ inner_join raw (gold_answers gold) ↔
          r ∈ raw ∧ g ∈ gold_answers gold ∧ g_tweet_id g = tweet_id r).
Proof.
  split; [|intros r g; apply elem_of_inner_join].
  intros r. rewrite elem_of_candidate_labeled_tweets. split.
  - intros (Hr & g & Hg & Hid). split; [done|].
    apply elem_of_gold_answers in Hg as (gc & Hin & Hy & Hc & ->).
    exists gc. done.
  - intros (Hr & gc & Hin & Hid & Hy & Hc). split; [done|].
    exists (GoldAnswer (gc_tweet_id gc) (gc_sentiment gc) (gc_tweet_body gc)).
    split; [|done]. apply elem_of_gold_answers. exists gc. done.
Qed.

(** The join on the two-answer input: the answer on tweet 2, which has no
    gold row, is gone. *)
Example join_two_raw_answers :
  candidate_labeled_tweets two_raw_answers one_gold_row =
  [RawAnswer 1 "sunny again" 7 "Positive"].
Proof. reflexivity. Qed.

(** ** The per-tweet vote lists and the label generator *)

Lemma defaultdict_getitem_fst {V} (d : gmap string (list V)) (k : string) :
  (defaultdict_getitem d k).1 = default [] (d !! k).
Proof. unfold defaultdict_getitem. by destruct (d !! k). Qed.

(** The lookup binds at most the key it was asked for, to the empty list:
    every later read sees the same lists. *)
Lemma defaultdict_getitem_snd {V} (d : gmap string (list V)) (k k' : string) :
  default [] ((defaultdict_getitem d k).2 !! k') = default [] (d !! k').
Proof.
  unfold defaultdict_getitem. destruct (d !! k) eqn:Hk; simpl; [done|].
  destruct (decide (k = k')) as [<-|Hne].
  - by rewrite lookup_insert_eq, Hk.
  - by rewrite lookup_insert_ne.
Qed.

Lemma wls_append_lookup (wls : gmap string (list (string * string)))
    (row : raw_answer) (k : string) :
  wls_append wls row !! k =
  if decide (k = str (tweet_id row))
  then Some (default [] (wls !! k) ++ [(str (worker_id row), emotion row)])
  else wls !! k.
Proof.
  unfold wls_append, defaultdict_getitem.
  destruct (wls !! str (tweet_id row)) eqn:Hk; destruct (decide _) as [->|Hne].
  - by rewrite lookup_insert_eq, Hk.
  - by rewrite lookup_insert_ne.
  - by rewrite lookup_insert_eq, Hk.
  - by rewrite !lookup_insert_ne.
Qed.

Lemma build_wls_snoc (rows : list raw_answer) (row : raw_answer) :
  build_wls (rows ++ [row]) = wls_append (build_wls rows) row.
Proof. unfold build_wls. by rewrite fold_left_app. Qed.

Lemma recorded_votes_snoc (rows : list raw_answer) (row : raw_answer) (k : string) :
  recorded_votes (rows ++ [row]) k =
  recorded_votes rows k ++
  (if decide (k = str (tweet_id row)) then [(str (worker_id row), emotion row)] else []).
Proof.
  unfold recorded_votes. rewrite filter_app, map_app. f_equal.
  rewrite filter_cons, filter_nil.
  destruct (decide (k = _)) as [->|Hne].
  - by rewrite decide_True.
  - by rewrite decide_False.
Qed.

(** The list stored under a key is the list of the votes recorded for it;
    a key is bound exactly when a row carries it. *)
Lemma build_wls_lookup (rows : list raw_answer) (k : string) :
  default [] (build_wls rows !! k) = recorded_votes rows k ∧
  (is_Some (build_wls rows !! k) ↔ ∃ r, r ∈ rows ∧ str (tweet_id r) = k).
Proof.
  induction rows as [|row rows [IH1 IH2]] using rev_ind.
  - split; [done|]. unfold build_wls. simpl. rewrite lookup_empty. split.
    + by intros [? [=]].
    + intros (r & Hr & _). by apply elem_of_nil in Hr.
  - rewrite build_wls_snoc, wls_append_lookup, recorded_votes_snoc.
    destruct (decide (k = _)) as [->|Hne].
    + split; [simpl; by rewrite IH1|].
      split; [|eauto]. intros _. exists row. split; [|done].
      apply elem_of_app. right. left.
    + rewrite app_nil_r. split; [done|]. rewrite IH2. split.
      * intros (r & Hr & Hk). exists r. split; [|done]. apply elem_of_app. by left.
      * intros (r & Hr & Hk). apply elem_of_app in Hr as [Hr|Hr]; [eauto|].
        apply list_elem_of_singleton in Hr. subst. done.
Qed.

(** The vote lists and the generator detect nothing: for every candidate
    the generator yields every (worker, emotion) pair recorded for the
    candidate's tweet, each as often as it was recorded and in the order of
    the records; a pair that is recorded twice with two emotions is yielded
    twice, with both. *)
Lemma generator_passes_every_vote (rows : list raw_answer) (t : Tweet) :
  (worker_label_generator (build_wls (worker_labels rows)) t).1 =
  recorded_votes rows (name t).
Proof.
  unfold worker_label_generator, worker_labels.
  rewrite defaultdict_getitem_fst. apply build_wls_lookup.
Qed.

(** Worker 7 labels tweet 1 "Positive" and then "Negative": the generator
    yields both pairs, so the conflict reaches the builder undetected. *)
Example generator_keeps_conflict :
  (worker_label_generator (build_wls (worker_labels conflicting_answers))
                          (mkTweet "1" 0)).1
  = [("7", "Positive"); ("7", "Negative")] ∧
  ¬ conflict_free
      (worker_label_generator (build_wls (worker_labels conflicting_answers))
                              (mkTweet "1" 0)).1.
Proof.
  split; [reflexivity|].
  assert ((worker_label_generator (build_wls (worker_labels conflicting_answers))
                                  (mkTweet "1" 0)).1
          = [("7", "Positive"); ("7", "Negative")]) as -> by reflexivity.
  intros H. specialize (H "7" "Positive" "Negative").
  assert ("Positive" = "Negative") as [=].
  apply H.
  - left.
  - right. left.
Qed.

(** ** The numeric gold labels *)

Lemma verbose_labels_snoc (gold : list gold_answer) (g : gold_answer) :
  verbose_labels (gold ++ [g]) =
  <[str (g_tweet_id g) := sentiment g]> (verbose_labels gold).
Proof. unfold verbose_labels. by rewrite fold_left_app. Qed.

(** The dictionary binds the printed id of every gold row, and nothing
    else. *)
Lemma verbose_labels_lookup (gold : list gold_answer) (k : string) :
  is_Some (verbose_labels gold !! k) ↔ ∃ g, g ∈ gold ∧ str (g_tweet_id g) = k.
Proof.
  induction gold as [|g gold IH] using rev_ind.
  - unfold verbose_labels. simpl. rewrite lookup_empty. split.
    + by intros [? [=]].
    + intros (g & Hg & _). by apply elem_of_nil in Hg.
  - rewrite verbose_labels_snoc.
    destruct (decide (str (g_tweet_id g) = k)) as [<-|Hne].
    + rewrite lookup_insert_eq. split; [|eauto]. intros _.
      exists g. split; [|done]. apply elem_of_app. right. left.
    + rewrite lookup_insert_ne by done. rewrite IH. split.
      * intros (g' & Hg' & Hk). exists g'. split; [|done]. apply elem_of_app. by left.
      * intros (g' & Hg' & Hk). apply elem_of_app in Hg' as [Hg'|Hg']; [eauto|].
        apply list_elem_of_singleton in Hg'. by subst.
Qed.

(** A value of the dictionary is the sentiment of a gold row with that
    key. *)
Lemma verbose_labels_value (gold : list gold_answer) (k s : string) :
  verbose_labels gold !! k = Some s →
  ∃ g, g ∈ gold ∧ str (g_tweet_id g) = k ∧ sentiment g = s.
Proof.
  induction gold as [|g gold IH] using rev_ind.
  - unfold verbose_labels. simpl. by rewrite lookup_empty.
  - rewrite verbose_labels_snoc.
    destruct (decide (str (g_tweet_id g) = k)) as [<-|Hne].
    + rewrite lookup_insert_eq. intros [= <-]. exists g.
      split; [|done]. apply elem_of_app. right. left.
    + rewrite lookup_insert_ne by done. intros H.
      destruct (IH H) as (g' & Hg' & Hk). exists g'.
      split; [|done]. apply elem_of_app. by left.
Qed.

(** Every tweet of the joined frame has a gold sentiment. *)
Lemma joined_tweet_has_gold (raw : list raw_answer)
    (gold : list gold_crowd_answer) (r : raw_answer) :
  r ∈ candidate_labeled_tweets raw gold →
  is_Some (verbose_labels (gold_answers gold) !! str (tweet_id r)).
Proof.
  intros Hr. apply elem_of_candidate_labeled_tweets in Hr as (_ & g & Hg & Hid).
  apply verbose_labels_lookup. exists g. split; [done|]. by rewrite Hid.
Qed.

Lemma label_code_ok (vals : list string) (s : string) (z : Z) :
  label_code vals s = Ok z →
  position_code vals s z ∧ 1 ≤ z ≤ Z.of_nat (length vals).
Proof.
  unfold label_code. destruct (index s vals) as [k|e] eqn:Hi; simpl; [|discriminate].
  intros [= <-]. apply index_ok in Hi as [Hk _]. split.
  - exists k. split; [done|lia].
  - apply lookup_lt_Some in Hk. lia.
Qed.

Lemma label_code_raise (vals : list string) (s : string) (e : exn) :
  label_code vals s = Raise e ↔ (s ∉ vals) ∧ e = ValueError.
Proof.
  unfold label_code. destruct (index s vals) as [k|e'] eqn:Hi; simpl.
  - split; [discriminate|]. intros [Hnot He].
    assert (index s vals = Raise e) as H by (by apply index_raise). congruence.
  - apply index_raise in Hi as [Hnot ->]. split.
    + by intros [= <-].
    + by intros [_ ->].
Qed.

Lemma elem_of_query_split (tweets : list Tweet) (s : Z) (c : Tweet) :
  c ∈ query_split tweets s ↔ c ∈ tweets ∧ split c = s.
Proof. unfold query_split. rewrite list_elem_of_filter. tauto. Qed.

(** The two loops of cell 28 raise only what the loop body raised on a
    candidate of split 0 or 1, and they do raise when the body does. *)
Lemma gold_labels_raise_inv (vals : list string) (vl : gmap string string)
    (tweets : list Tweet) (e : exn) :
  gold_labels vals vl tweets = Raise e →
  ∃ c, c ∈ tweets ∧ gold_label vals vl c = Raise e.
Proof.
  unfold gold_labels.
  destruct (for_each _ (query_split tweets 0)) as [g0|e0] eqn:H0; simpl.
  - destruct (for_each _ (query_split tweets 1)) as [g1|e1] eqn:H1; simpl;
      [discriminate|]. intros [= <-].
    apply for_each_raise_inv in H1 as (c & Hc & Hr).
    apply elem_of_query_split in Hc as [Hc _]. eauto.
  - intros [= <-]. apply for_each_raise_inv in H0 as (c & Hc & Hr).
    apply elem_of_query_split in Hc as [Hc _]. eauto.
Qed.

Lemma gold_labels_raise_intro (vals : list string) (vl : gmap string string)
    (tweets : list Tweet) (c : Tweet) (e : exn) :
  c ∈ tweets → split c = 0 ∨ split c = 1 →
  gold_label vals vl c = Raise e →
  ∃ e', gold_labels vals vl tweets = Raise e'.
Proof.
  intros Hc Hs Hr. unfold gold_labels.
  destruct (for_each _ (query_split tweets 0)) as [g0|e0] eqn:H0; simpl; [|eauto].
  destruct (for_each _ (query_split tweets 1)) as [g1|e1] eqn:H1; simpl; [|eauto].
  exfalso. destruct Hs as [Hs|Hs].
  - destruct (for_each_raise_iff (gold_label vals vl) (query_split tweets 0)) as [_ H].
    destruct H as [e' He'].
    + exists c, e. split; [by apply elem_of_query_split|done].
    + congruence.
  - destruct (for_each_raise_iff (gold_label vals vl) (query_split tweets 1)) as [_ H].
    destruct H as [e' He'].
    + exists c, e. split; [by apply elem_of_query_split|done].
    + congruence.
Qed.


(** ** Reading a row through its indices *)

Lemma lookups_seq_filter (P : Z → Prop) `{∀ x, Decision (P x)} (pre row : list Z) :
  map (λ j, default 0 ((pre ++ row) !! j))
      (filter (λ j, P (default 0 ((pre ++ row) !! j)))
              (seq (length pre) (length row)))
  = filter P row.
Proof.
  revert pre. induction row as [|x row IH]; intros pre; [done|].
  simpl length. simpl seq. rewrite !filter_cons.
  replace ((pre ++ x :: row) !! length pre) with (Some x)
    by (by rewrite list_lookup_middle).
  simpl default.
  specialize (IH (pre ++ [x])).
  rewrite <- app_assoc, length_app in IH. simpl in IH.
  replace (length pre + 1)%nat with (S (length pre)) in IH by lia.
  destruct (decide (P x)).
  - simpl. rewrite list_lookup_middle by done. simpl. f_equal. exact IH.
  - exact IH.
Qed.

(** [[L[i,j] for j in L[i].nonzero()[1]]] is the list of the row's votes. *)
Lemma nonzero_entries (L : matrix) (i : nat) (row : list Z) :
  rows L !! i = Some row →
  map (λ j, matrix_get L i j) (nonzero_cols (matrix_row L i)) = row_votes row.
Proof.
  intros Hrow. unfold matrix_get, matrix_row, nonzero_cols. rewrite Hrow. simpl.
  unfold row_votes. exact (lookups_seq_filter (λ x, x ≠ 0) [] row).
Qed.

(** ** The counter *)

Lemma count_of_snoc (x y : Z) (l : list Z) :
  count_of x (l ++ [y]) = (count_of x l + if decide (y = x) then 1 else 0)%nat.
Proof.
  unfold count_of. rewrite filter_app, length_app, filter_cons, filter_nil.
  by destruct (decide (y = x)).
Qed.

Lemma count_of_pos (x : Z) (l : list Z) : x ∈ l ↔ (0 < count_of x l)%nat.
Proof.
  unfold count_of. split.
  - intros Hx. assert (x ∈ filter (λ y, y = x) l) as Hin
      by (by apply list_elem_of_filter).
    destruct (filter _ l); [by apply elem_of_nil in Hin|simpl; lia].
  - intros Hlen. destruct (filter (λ y, y = x) l) as [|z l'] eqn:Hf; [simpl in Hlen; lia|].
    assert (z ∈ filter (λ y, y = x) l) as Hin by (rewrite Hf; left).
    apply list_elem_of_filter in Hin as [-> Hin]. done.
Qed.

Lemma Counter_snoc (l : list Z) (x : Z) :
  Counter (l ++ [x]) = counter_incr x (Counter l).
Proof. unfold Counter. by rewrite fold_left_app. Qed.

(** Incrementing a counter whose keys are distinct. *)
Lemma counter_incr_map (x : Z) (g : Z → nat) (keys : list Z) :
  NoDup keys →
  (x ∉ keys → g x = 0%nat) →
  counter_incr x (map (λ k, (k, g k)) keys) =
  map (λ k, (k, (g k + if decide (x = k) then 1 else 0)%nat))
      (if decide (x ∈ keys) then keys else keys ++ [x]).
Proof.
  intros Hnd Hx. induction keys as [|k keys IH]; simpl.
  - destruct (decide (x ∈ [])) as [Hin|_]; [by apply elem_of_nil in Hin|]. simpl.
    rewrite decide_True by done. rewrite Hx by apply not_elem_of_nil. done.
  - apply NoDup_cons in Hnd as [Hk Hnd].
    destruct (decide (k = x)) as [->|Hne].
    + rewrite decide_True by left. simpl. rewrite decide_True by done.
      f_equal; [f_equal; lia|].
      apply map_ext_in. intros k' Hk'. apply list_elem_of_In in Hk'.
      rewrite decide_False by (intros <-; done). f_equal. lia.
    + rewrite IH; [|done|].
      * destruct (decide (x ∈ keys)) as [Hin|Hnin].
        -- rewrite decide_True by (by right). simpl.
           rewrite decide_False by done. f_equal. f_equal. lia.
        -- rewrite decide_False by (rewrite not_elem_of_cons; done). simpl.
           rewrite decide_False by done. f_equal. f_equal. lia.
      * intros Hnin. apply Hx. rewrite not_elem_of_cons. done.
Qed.

(** The counter lists the distinct votes in order of first appearance, each
    with the number of its occurrences. *)
Lemma Counter_spec (l : list Z) :
  Counter l = map (λ k, (k, count_of k l)) (unique l).
Proof.
  induction l as [|x l IH] using rev_ind; [done|].
  rewrite Counter_snoc, IH, unique_snoc.
  rewrite counter_incr_map.
  - apply map_ext. intros k. by rewrite count_of_snoc.
  - apply NoDup_unique.
  - rewrite elem_of_unique. intros Hx.
    destruct (count_of x l) eqn:Hc; [done|].
    exfalso. apply Hx, count_of_pos. lia.
Qed.

(** ** The selection of [most_common(1)] *)

Lemma max_by_count_first_max (best : Z * nat) (items : counter) :
  first_max (best :: items) (max_by_count best items).
Proof.
  revert best. induction items as [|it items IH]; intros best; simpl.
  - exists [], []. split_and!; [done|..]; intros a Ha; by apply elem_of_nil in Ha.
  - destruct (decide (best.2 < it.2)%nat) as [Hlt|Hge].
    + destruct (IH it) as (pre & post & Heq & Hpre & Hpost).
      exists (best :: pre), post. split_and!; [by rewrite Heq| |done].
      intros a Ha. apply elem_of_cons in Ha as [->|Ha]; [|by apply Hpre].
      destruct pre as [|p pre]; simpl in Heq.
      * injection Heq as <- _. done.
      * injection Heq as <- _. specialize (Hpre it). 
        assert (it.2 < (max_by_count it items).2)%nat by (apply Hpre; left). lia.
    + destruct (IH best) as (pre & post & Heq & Hpre & Hpost).
      destruct pre as [|p pre]; simpl in Heq.
      * injection Heq as Hb Hi. exists [], (it :: items).
        split_and!; [by rewrite <- Hb| |].
        -- intros a Ha. by apply elem_of_nil in Ha.
        -- intros a Ha. rewrite <- Hb.
           apply elem_of_cons in Ha as [->|Ha]; [lia|].
           rewrite Hb. apply Hpost. by rewrite <- Hi.
      * injection Heq as <- Hi. exists (best :: it :: pre), post.
        split_and!; [simpl; by rewrite <- Hi| |done].
        intros a Ha.
        assert (best.2 < (max_by_count best items).2)%nat by (apply Hpre; left).
        apply elem_of_cons in Ha as [->|Ha]; [done|].
        apply elem_of_cons in Ha as [->|Ha]; [lia|].
        apply Hpre. by right.
Qed.

Lemma most_common_1_first_max (c : counter) :
  c ≠ [] → ∃ it, most_common_1 c = [it] ∧ first_max c it.
Proof.
  destruct c as [|it c]; [done|]. intros _. eexists. split; [done|].
  apply max_by_count_first_max.
Qed.

(** ** Majority vote *)

Lemma mv_at_row (L : matrix) (i : nat) (row : list Z) :
  rows L !! i = Some row →
  mv_at L i =
  let* top := getitem (most_common_1 (Counter (row_votes row))) 0 in Ok top.1.
Proof. intros Hrow. unfold mv_at. by rewrite (nonzero_entries L i row). Qed.

(** The loop body raises nothing but [IndexError]. *)
Lemma mv_at_raise (L : matrix) (i : nat) (e : exn) :
  mv_at L i = Raise e → e = IndexError.
Proof.
  unfold mv_at. destruct (most_common_1 _); simpl; congruence.
Qed.

Lemma row_votes_nil (row : list Z) :
  Forall (λ x, x = 0) row → row_votes row = [].
Proof.
  unfold row_votes. induction 1 as [|x row Hx _ IH]; [done|].
  rewrite filter_cons, decide_False by (intros Hne; by apply Hne). exact IH.
Qed.

Lemma elem_of_map_count (g : Z → nat) (keys : list Z) (x : Z) :
  x ∈ keys → (x, g x) ∈ map (λ k, (k, g k)) keys.
Proof. intros Hx. exact (list_elem_of_fmap_2 (λ k, (k, g k)) keys x Hx). Qed.

(** The first item of greatest count of a counter names the first most
    frequent vote. *)
Lemma first_max_Counter (votes : list Z) (it : Z * nat) :
  first_max (Counter votes) it → first_most_frequent votes it.1.
Proof.
  rewrite Counter_spec. intros (pre & post & Heq & Hpre & Hpost).
  apply map_eq_app in Heq as (kpre & krest & Hu & <- & Hrest).
  apply map_eq_cons in Hrest as (k & kpost & -> & <- & <-).
  simpl in *.
  assert (Hk : k ∈ votes).
  { apply elem_of_unique. rewrite Hu. apply elem_of_app. right. left. }
  assert (Hle : ∀ x, (count_of x votes ≤ count_of k votes)%nat).
  { intros x. destruct (decide (x ∈ votes)) as [Hx|Hx].
    - apply elem_of_unique in Hx. rewrite Hu in Hx.
      apply elem_of_app in Hx as [Hx|Hx].
      + assert ((x, count_of x votes).2 < count_of k votes)%nat as Hlt; [|simpl in Hlt; lia].
        apply Hpre. by apply (elem_of_map_count (λ k, count_of k votes)).
      + apply elem_of_cons in Hx as [->|Hx]; [done|].
        apply (Hpost (x, count_of x votes)).
        by apply (elem_of_map_count (λ k, count_of k votes)).
    - destruct (count_of x votes) eqn:Hc; [lia|].
      exfalso. apply Hx, count_of_pos. lia. }
  split; [done|].
  destruct (list_elem_of_split_l votes k Hk) as (v1 & v2 & Hv & Hk1).
  exists v1, v2. split_and!; [done..|].
  intros x Hx.
  destruct (unique_first_occurrence v1 v2 k Hk1) as [ext Hext].
  rewrite <- Hv, Hu in Hext.
  assert (Hnd : NoDup (kpre ++ k :: kpost)) by (rewrite <- Hu; apply NoDup_unique).
  apply NoDup_app in Hnd as (_ & Hnk & _).
  assert (kpre = unique v1) as ->.
  { assert (k ∉ unique v1) as H1 by (by rewrite elem_of_unique).
    assert (k ∉ kpre) as H2 by (intros Hin; apply (Hnk k Hin); left).
    by destruct (not_elem_of_app_cons_inv_l _ _ _ _ _ _ H1 H2 Hext) as (? & _ & _). }
  apply (Hpre (x, count_of x votes)).
  apply (elem_of_map_count (λ k, count_of k votes)). by apply elem_of_unique.
Qed.

(** On a row with a vote the loop body returns the first most frequent
    vote. *)
Lemma mv_at_returns (L : matrix) (i : nat) (row : list Z) :
  rows L !! i = Some row →
  row_votes row ≠ [] →
  ∃ l, mv_at L i = Ok l ∧ first_most_frequent (row_votes row) l.
Proof.
  intros Hrow Hvotes.
  destruct (most_common_1_first_max (Counter (row_votes row))) as (it & Hit & Hmax).
  { rewrite Counter_spec. intros Hnil. apply map_eq_nil, unique_nil_inv in Hnil. done. }
  exists it.1. split; [by rewrite (mv_at_row L i row), Hit|by apply first_max_Counter].
Qed.

(** The computation returns on every matrix whose rows all hold a vote. *)
Lemma mv_returns (L : matrix) :
  Forall (λ row, row_votes row ≠ []) (rows L) → ∃ ls, mv L = Ok ls.
Proof.
  intros Hall. unfold mv. apply for_each_total. intros i Hi.
  apply elem_of_seq in Hi. simpl in Hi.
  destruct (lookup_lt_is_Some_2 (rows L) i) as [row Hrow]; [lia|].
  destruct (mv_at_returns L i row Hrow) as (l & Hl & _); [|eauto].
  rewrite Forall_forall in Hall. apply Hall. apply list_elem_of_lookup. eauto.
Qed.

(** C2, as the code has it: for a row with at least one vote, the loop body
    of the majority vote returns a label code that is most frequent among
    the row's non-zero entries, and when several codes are tied for most
    frequent it returns the one whose first vote, in column order, comes
    first; the result of the whole computation has that code at the row's
    index. *)
Theorem mv_first_most_frequent (L : matrix) (i : nat) (row : list Z) :
  rows L !! i = Some row →
  row_votes row ≠ [] →
  ∃ l, mv_at L i = Ok l ∧
       first_most_frequent (row_votes row) l ∧
       ∀ ls, mv L = Ok ls → ls !! i = Some l.
Proof.
  intros Hrow Hvotes.
  destruct (mv_at_returns L i row Hrow Hvotes) as (l & Hat & Hfirst).
  exists l. split_and!; [done..|].
  intros ls Hmv. unfold mv in Hmv. apply for_each_inv in Hmv.
  assert (seq 0 (shape L).1 !! i = Some i) as Hi.
  { apply lookup_seq. split; [done|]. simpl. by apply lookup_lt_Some in Hrow. }
  destruct (Forall2_lookup_l _ _ _ _ _ Hmv Hi) as (l' & Hl & Hat').
  congruence.
Qed.

(** C2, counterexample: in the row [[2; 1]] the codes 1 and 2 are tied with
    one vote each; the majority vote returns 2, the code voted first, not the
    lowest code 1. *)
Lemma mv_tie_not_lowest :
  mv (Matrix [tied_row] 2) = Ok [2] ∧
  most_frequent (row_votes tied_row) 1 ∧
  ¬ lowest_most_frequent (row_votes tied_row) 2.
Proof.
  assert (Hmf : most_frequent (row_votes tied_row) 1).
  { change (row_votes tied_row) with [2; 1]. split; [right; left|].
    intros x. unfold count_of. rewrite !filter_cons, !filter_nil.
    repeat case_decide; simpl; lia. }
  split_and!; [reflexivity|done|].
  intros [_ Hlow]. specialize (Hlow 1 Hmf). lia.
Qed.

(** C8: on a matrix with a row that holds no vote, the majority-vote
    computation raises [IndexError]: the counter of the row is empty,
    [most_common(1)] is the empty list, and its element 0 does not exist. *)
Theorem mv_fails_on_empty_row (L : matrix) (row : list Z) :
  row ∈ rows L →
  Forall (λ x, x = 0) row →
  mv L = Raise IndexError.
Proof.
  intros Hin Hzero. apply list_elem_of_lookup in Hin as [i Hi].
  unfold mv. apply for_each_raises.
  - exists i. split.
    + apply elem_of_seq. simpl. apply lookup_lt_Some in Hi. lia.
    + rewrite (mv_at_row L i row Hi), (row_votes_nil row Hzero). reflexivity.
  - intros j e _. apply mv_at_raise.
Qed.

(** ** The label matrix builder *)

Lemma build_rows (votes : list vote) :
  row_items (build_label_matrix votes) = unique (map item votes).
Proof. reflexivity. Qed.

Lemma build_cols (votes : list vote) :
  col_workers (build_label_matrix votes) = unique (map worker votes).
Proof. reflexivity. Qed.

Lemma elem_of_build_rows (votes : list vote) (i : string) :
  i ∈ row_items (build_label_matrix votes) ↔ ∃ v, v ∈ votes ∧ item v = i.
Proof.
  rewrite build_rows, elem_of_unique.
  change (map item votes) with (item <$> votes). rewrite list_elem_of_fmap.
  split; intros (v & H1 & H2); eauto.
Qed.

Lemma elem_of_build_cols (votes : list vote) (w : string) :
  w ∈ col_workers (build_label_matrix votes) ↔ ∃ v, v ∈ votes ∧ worker v = w.
Proof.
  rewrite build_cols, elem_of_unique.
  change (map worker votes) with (worker <$> votes). rewrite list_elem_of_fmap.
  split; intros (v & H1 & H2); eauto.
Qed.

(** A pair without vote has a zero cell. *)
Lemma cell_no_vote (votes : list vote) (i w : string) :
  votes_of_pair votes i w = [] → cell votes i w = 0.
Proof. unfold cell. by intros ->. Qed.

(** A pair with votes has the label of its first vote in its cell. *)
Lemma cell_first_vote (votes : list vote) (i w : string) :
  votes_of_pair votes i w ≠ [] →
  ∃ v, head (votes_of_pair votes i w) = Some v ∧ v ∈ votes ∧
       item v = i ∧ worker v = w ∧ cell votes i w = label v.
Proof.
  unfold cell. destruct (votes_of_pair votes i w) as [|v vs] eqn:Hp; [done|].
  intros _. exists v. simpl.
  assert (v ∈ votes_of_pair votes i w) as Hin by (rewrite Hp; left).
  unfold votes_of_pair in Hin. apply list_elem_of_filter in Hin as [[? ?] ?]. done.
Qed.

Lemma votes_of_pair_elem (votes : list vote) (v : vote) :
  v ∈ votes → votes_of_pair votes (item v) (worker v) ≠ [].
Proof.
  intros Hv Hnil.
  assert (v ∈ votes_of_pair votes (item v) (worker v)) as Hin
    by (by apply list_elem_of_filter).
  rewrite Hnil in Hin. by apply elem_of_nil in Hin.
Qed.

(** Two votes of a list without duplicate pairs that agree on item and
    worker are one vote. *)
Lemma no_duplicate_pairs_inj (votes : list vote) (v v' : vote) :
  no_duplicate_pairs votes → v ∈ votes → v' ∈ votes →
  item v = item v' → worker v = worker v' → v = v'.
Proof.
  unfold no_duplicate_pairs. induction votes as [|u votes IH]; intros Hnd Hv Hv' Hi Hw.
  - by apply elem_of_nil in Hv.
  - simpl in Hnd. apply NoDup_cons in Hnd as [Hu Hnd].
    assert (Hkey : ∀ x, x ∈ votes → (item x, worker x) ∈ map (λ v, (item v, worker v)) votes).
    { intros x Hx. exact (list_elem_of_fmap_2 (λ v, (item v, worker v)) votes x Hx). }
    apply elem_of_cons in Hv as [->|Hv]; apply elem_of_cons in Hv' as [->|Hv'].
    + done.
    + exfalso. apply Hu. rewrite Hi, Hw. by apply Hkey.
    + exfalso. apply Hu. rewrite <- Hi, <- Hw. by apply Hkey.
    + by apply IH.
Qed.

(** Without duplicate pairs the cell of a vote holds its label. *)
Lemma cell_of_vote (votes : list vote) (v : vote) :
  no_duplicate_pairs votes → v ∈ votes →
  cell votes (item v) (worker v) = label v.
Proof.
  intros Hnd Hv.
  destruct (cell_first_vote votes (item v) (worker v)) as (v' & _ & Hv' & Hi & Hw & ->).
  { by apply votes_of_pair_elem. }
  f_equal. by apply (no_duplicate_pairs_inj votes).
Qed.

(** The entry at a row and a column of the built matrix is the cell of the
    row's item and the column's worker. *)
Lemma build_matrix_get (votes : list vote) (r c : nat) (i w : string) :
  row_items (build_label_matrix votes) !! r = Some i →
  col_workers (build_label_matrix votes) !! c = Some w →
  matrix_get (cells (build_label_matrix votes)) r c = cell votes i w.
Proof.
  intros Hr Hc. unfold matrix_get, matrix_row. simpl in *.
  change (map ?f ?l) with (f <$> l). rewrite list_lookup_fmap, Hr. simpl.
  change (map ?f ?l) with (f <$> l). by rewrite list_lookup_fmap, Hc.
Qed.

Lemma build_shape (votes : list vote) :
  shape (cells (build_label_matrix votes)) =
  (length (row_items (build_label_matrix votes)),
   length (col_workers (build_label_matrix votes))).
Proof. unfold shape. simpl. by rewrite length_map. Qed.

Lemma zip_map_bind {A B C} (f : A → B) (g : A * B → list C) (l : list A) :
  zip l (map f l) ≫= g = l ≫= λ x, g (x, f x).
Proof.
  induction l as [|x l IH]; [done|].
  simpl. f_equal. exact IH.
Qed.

(** Reading the built matrix back, pair by pair. *)
Lemma votes_of_built_matrix (votes : list vote) :
  votes_of_matrix (build_label_matrix votes) =
  unique (map item votes) ≫= λ i,
    unique (map worker votes) ≫= λ w,
      if decide (cell votes i w = 0) then [] else [Vote i w (cell votes i w)].
Proof.
  unfold votes_of_matrix. simpl. rewrite zip_map_bind.
  apply list_bind_ext; [|done]. intros i. by rewrite zip_map_bind.
Qed.

Lemma elem_of_votes_of_built_matrix (votes : list vote) (v : vote) :
  v ∈ votes_of_matrix (build_label_matrix votes) ↔
  (∃ u, u ∈ votes ∧ item u = item v) ∧ (∃ u, u ∈ votes ∧ worker u = worker v) ∧
  label v = cell votes (item v) (worker v) ∧ label v ≠ 0.
Proof.
  rewrite votes_of_built_matrix, list_elem_of_bind. split.
  - intros (i & Hin & Hi). apply list_elem_of_bind in Hin as (w & Hin & Hw).
    destruct (decide (cell votes i w = 0)) as [|Hne]; [by apply elem_of_nil in Hin|].
    apply list_elem_of_singleton in Hin as ->. simpl.
    split_and!; [|  |done..].
    + by apply (elem_of_build_rows votes).
    + by apply (elem_of_build_cols votes).
  - intros (Hi & Hw & Hl & Hne). exists (item v). split.
    + apply list_elem_of_bind. exists (worker v). split.
      * rewrite decide_False by congruence. rewrite <- Hl.
        destruct v. simpl. left.
      * by apply (elem_of_build_cols votes).
    + by apply (elem_of_build_rows votes).
Qed.

Lemma NoDup_votes_of_built_matrix (votes : list vote) :
  NoDup (votes_of_matrix (build_label_matrix votes)).
Proof.
  rewrite votes_of_built_matrix. apply NoDup_bind; [| |apply NoDup_unique].
  - intros i1 i2 v _ _ H1 H2.
    apply list_elem_of_bind in H1 as (w1 & H1 & _).
    apply list_elem_of_bind in H2 as (w2 & H2 & _).
    destruct (decide _); [by apply elem_of_nil in H1|].
    destruct (decide _); [by apply elem_of_nil in H2|].
    apply list_elem_of_singleton in H1, H2. congruence.
  - intros i _. apply NoDup_bind; [| |apply NoDup_unique].
    + intros w1 w2 v _ _ H1 H2.
      destruct (decide _); [by apply elem_of_nil in H1|].
      destruct (decide _); [by apply elem_of_nil in H2|].
      apply list_elem_of_singleton in H1, H2. congruence.
    + intros w _. destruct (decide _); [constructor|apply NoDup_singleton].
Qed.

(** Votes without a zero label and without duplicate pair come back from
    the built matrix, each exactly once. *)
Lemma round_trip_of_nonzero_votes (votes : list vote) :
  Forall (λ v, label v ≠ 0) votes →
  no_duplicate_pairs votes →
  votes_of_matrix (build_label_matrix votes) ≡ₚ votes.
Proof.
  intros Hnz Hnd. apply NoDup_Permutation.
  - apply NoDup_votes_of_built_matrix.
  - exact (NoDup_fmap_1 (λ v, (item v, worker v)) votes Hnd).
  - intros v. rewrite elem_of_votes_of_built_matrix. split.
    + intros ((u & Hu & Hi) & _ & Hl & Hne).
      destruct (cell_first_vote votes (item v) (worker v)) as (v' & _ & Hv' & Hi' & Hw' & Hc).
      { intros Hnil. apply Hne. rewrite Hl. by apply cell_no_vote. }
      replace v with v'; [done|].
      destruct v, v'. simpl in *. congruence.
    + intros Hv. split_and!; [eauto..| |].
      * symmetry. by apply cell_of_vote.
      * rewrite Forall_forall in Hnz. by apply Hnz.
Qed.

Lemma valid_votes_nonzero (K : Z) (votes : list vote) :
  valid_votes K votes → Forall (λ v, label v ≠ 0) votes.
Proof. unfold valid_votes. intros H. eapply Forall_impl; [exact H|]. simpl. lia. Qed.

(** C3: for votes with label codes in [1..K] and no duplicate (item, worker)
    pair, the triples read back from the non-zero entries of the built
    matrix are the original votes, each exactly once: the list read back is a
    permutation of the votes. *)
Theorem label_matrix_round_trip (K : Z) (votes : list vote) :
  valid_votes K votes →
  no_duplicate_pairs votes →
  votes_of_matrix (build_label_matrix votes) ≡ₚ votes.
Proof.
  intros Hvalid Hnd. apply round_trip_of_nonzero_votes; [|done].
  by apply (valid_votes_nonzero K).
Qed.

(** C4: for votes with label codes in [1..K], the built matrix has one row
    per distinct item and one column per distinct worker of the votes, rows
    and columns in order of first appearance (so votes cast later only add
    rows and columns after the existing ones); its shape is the number of
    those items by the number of those workers and every row has one entry
    per column; the entry of a pair without vote is zero, and the entry of a
    pair with a vote is a code in [1..K], hence never zero. *)
Theorem label_matrix_invariants (K : Z) (votes : list vote) :
  valid_votes K votes →
  NoDup (row_items (build_label_matrix votes)) ∧
  (∀ i, i ∈ row_items (build_label_matrix votes) ↔ ∃ v, v ∈ votes ∧ item v = i) ∧
  NoDup (col_workers (build_label_matrix votes)) ∧
  (∀ w, w ∈ col_workers (build_label_matrix votes) ↔ ∃ v, v ∈ votes ∧ worker v = w) ∧
  (∀ more, ∃ new_items new_workers,
      row_items (build_label_matrix (votes ++ more)) =
        row_items (build_label_matrix votes) ++ new_items ∧
      col_workers (build_label_matrix (votes ++ more)) =
        col_workers (build_label_matrix votes) ++ new_workers) ∧
  shape (cells (build_label_matrix votes)) =
    (length (row_items (build_label_matrix votes)),
     length (col_workers (build_label_matrix votes))) ∧
  Forall (λ row, length row = length (col_workers (build_label_matrix votes)))
         (rows (cells (build_label_matrix votes))) ∧
  (∀ r c i w,
      row_items (build_label_matrix votes) !! r = Some i →
      col_workers (build_label_matrix votes) !! c = Some w →
      (votes_of_pair votes i w = [] →
         matrix_get (cells (build_label_matrix votes)) r c = 0) ∧
      (votes_of_pair votes i w ≠ [] →
         1 ≤ matrix_get (cells (build_label_matrix votes)) r c ≤ K)).
Proof.
  intros Hvalid. split_and!.
  - apply NoDup_unique.
  - apply elem_of_build_rows.
  - apply NoDup_unique.
  - apply elem_of_build_cols.
  - intros more. rewrite !build_rows, !build_cols, !map_app.
    destruct (unique_app_prefix (map item votes) (map item more)) as [e1 ->].
    destruct (unique_app_prefix (map worker votes) (map worker more)) as [e2 ->].
    eauto.
  - apply build_shape.
  - simpl. apply Forall_forall. intros row Hrow.
    change (map ?f ?l) with (f <$> l) in Hrow.
    apply list_elem_of_fmap in Hrow as (i & -> & _). by rewrite length_map.
  - intros r c i w Hr Hc. rewrite (build_matrix_get votes r c i w Hr Hc). split.
    + apply cell_no_vote.
    + intros Hne. destruct (cell_first_vote votes i w Hne) as (v & _ & Hv & _ & _ & ->).
      unfold valid_votes in Hvalid. rewrite Forall_forall in Hvalid. by apply Hvalid.
Qed.

(** ** Worker accuracies on a built matrix *)

(** Every column of a built matrix stores a vote. *)
Lemma built_column_nnz (K : Z) (votes : list vote) (j : nat) :
  valid_votes K votes →
  (j < n_cols (cells (build_label_matrix votes)))%nat →
  (1 ≤ col_nnz (cells (build_label_matrix votes)) j)%nat.
Proof.
  intros Hvalid Hj. simpl in Hj.
  destruct (lookup_lt_is_Some_2 _ _ Hj) as [w Hw].
  assert (w ∈ col_workers (build_label_matrix votes)) as Hin
    by (apply list_elem_of_lookup; eauto).
  apply elem_of_build_cols in Hin as (v & Hv & Hwv).
  assert (item v ∈ row_items (build_label_matrix votes)) as Hrow
    by (apply elem_of_build_rows; eauto).
  apply list_elem_of_lookup in Hrow as [r Hr].
  assert (Hget : matrix_get (cells (build_label_matrix votes)) r j = cell votes (item v) w)
    by (by apply build_matrix_get).
  destruct (cell_first_vote votes (item v) w) as (v' & _ & Hv' & _ & _ & Hc).
  { rewrite <- Hwv. by apply votes_of_pair_elem. }
  unfold valid_votes in Hvalid. rewrite Forall_forall in Hvalid.
  specialize (Hvalid v' Hv').
  unfold col_nnz.
  assert (matrix_get (cells (build_label_matrix votes)) r j ∈
          filter (λ x, x ≠ 0) (column (cells (build_label_matrix votes)) j)) as Hin.
  { apply list_elem_of_filter. split; [rewrite Hget, Hc; lia|].
    unfold column.
    apply (list_elem_of_fmap_2 (λ i, matrix_get (cells (build_label_matrix votes)) i j)).
    apply elem_of_seq. rewrite build_shape. simpl.
    apply lookup_lt_Some in Hr. simpl in Hr. lia. }
  destruct (filter _ _); [by apply elem_of_nil in Hin|simpl; lia].
Qed.

(** The accuracy of a column that stores a vote is a finite quotient. *)
Lemma acc_finite (L : matrix) (labels : list Z) (j : nat) (a : np_float) :
  (1 ≤ col_nnz L j)%nat → acc L labels j = Ok a → is_finite a.
Proof.
  intros Hnnz. unfold acc. destruct (n_correct L labels j) as [n|]; simpl; [|discriminate].
  intros [= <-]. unfold np_div. rewrite decide_False by lia. by eexists.
Qed.

(** With a gold label for every row, no accuracy computation raises. *)
Lemma accs_returns (L : matrix) (labels : list Z) :
  ((shape L).1 ≤ length labels)%nat → ∃ out, accs L labels = Ok out.
Proof.
  intros Hlen. destruct (accs L labels) as [out|e] eqn:Ha; [eauto|].
  exfalso. unfold accs in Ha. apply for_each_raise_inv in Ha as (j & _ & Hj).
  unfold acc in Hj. destruct (n_correct L labels j) as [n|e'] eqn:Hn; simpl in Hj;
    [discriminate|].
  unfold n_correct in Hn.
  destruct (for_each _ _) as [hits|e''] eqn:Hf in Hn; simpl in Hn; [discriminate|].
  apply for_each_raise_inv in Hf as (i & Hi & Hr).
  apply elem_of_seq in Hi. unfold getitem in Hr.
  destruct (labels !! i) eqn:Hl; simpl in Hr; [discriminate|].
  apply lookup_ge_None in Hl. lia.
Qed.

(** C9: in a matrix built from votes with label codes in [1..K], every
    column stores at least one vote, so each division of the accuracy
    computation has a divisor of at least one; the computation returns when
    there is a gold label for every row, and every accuracy it returns is a
    finite quotient. *)
Theorem worker_columns_have_votes (K : Z) (votes : list vote) (labels : list Z) :
  valid_votes K votes →
  (∀ j, (j < (shape (cells (build_label_matrix votes))).2)%nat →
        (1 ≤ col_nnz (cells (build_label_matrix votes)) j)%nat) ∧
  (∀ out, accs (cells (build_label_matrix votes)) labels = Ok out →
          Forall is_finite out) ∧
  ((length (row_items (build_label_matrix votes)) ≤ length labels)%nat →
   ∃ out, accs (cells (build_label_matrix votes)) labels = Ok out).
Proof.
  intros Hvalid. split_and!.
  - intros j Hj. by apply (built_column_nnz K).
  - intros out Hout. unfold accs in Hout. apply for_each_inv in Hout.
    apply Forall_forall. intros a Ha.
    apply list_elem_of_lookup in Ha as [n Hn].
    destruct (Forall2_lookup_r _ _ _ _ _ Hout Hn) as (j & Hj & Hacc).
    apply lookup_seq in Hj as [-> Hlt]. simpl in Hlt, Hacc.
    apply (acc_finite (cells (build_label_matrix votes)) labels n); [|done].
    by apply (built_column_nnz K).
  - intros Hlen. apply accs_returns. by rewrite build_shape.
Qed.

(** An accuracy computed on a column without stored vote is not a number:
    the matrix must come from the builder for the divisions to be safe. *)
Example accs_empty_column : accs (Matrix [] 2) [] = Ok [NaN; NaN].
Proof. reflexivity. Qed.

(** ** The dense scenario *)

(** C5: on the nine votes of the scenario the built matrix has shape 3 by 3,
    rows item1, item2, item3 and columns w1, w2, w3, every entry is a vote,
    and the majority vote is [1; 2; 1]. *)
Theorem dense_scenario :
  build_label_matrix scenario_votes =
    LabelMatrix ["item1"; "item2"; "item3"] ["w1"; "w2"; "w3"]
                (Matrix [[1; 1; 2]; [2; 2; 2]; [1; 2; 1]] 3) ∧
  shape (cells (build_label_matrix scenario_votes)) = (3%nat, 3%nat) ∧
  Forall (Forall (λ x, x ≠ 0)) (rows (cells (build_label_matrix scenario_votes))) ∧
  mv (cells (build_label_matrix scenario_votes)) = Ok [1; 2; 1].
Proof.
  split_and!; [reflexivity..| |reflexivity].
  repeat constructor; discriminate.
Qed.

(** ** From the notebook's votes to the builder's *)

Lemma build_wls_agrees (rows : list raw_answer) :
  wls_agrees (build_wls (worker_labels rows)) rows.
Proof. intros k. apply build_wls_lookup. Qed.

Lemma generator_agrees (wls : gmap string (list (string * string)))
    (rows : list raw_answer) (t : Tweet) :
  wls_agrees wls rows →
  (worker_label_generator wls t).1 = recorded_votes rows (name t) ∧
  wls_agrees (worker_label_generator wls t).2 rows.
Proof.
  intros Hag. unfold worker_label_generator. split.
  - rewrite defaultdict_getitem_fst. apply Hag.
  - intros k. rewrite defaultdict_getitem_snd. apply Hag.
Qed.

(** An emotion of the frame has a code, between 1 and the number of
    classes. *)
Lemma encode_vote_ok (rows : list raw_answer) (t : Tweet) (wl : string * string) :
  wl.2 ∈ map emotion rows →
  ∃ c, encode_vote (values rows) t wl = Ok (Vote (name t) wl.1 c) ∧
       1 ≤ c ≤ Z.of_nat (length (values rows)).
Proof.
  intros Hin. unfold encode_vote.
  destruct (label_code (values rows) wl.2) as [c|e] eqn:Hc; simpl.
  - exists c. split; [done|]. by apply label_code_ok in Hc as [_ ?].
  - apply label_code_raise in Hc as [Hnot _]. exfalso. apply Hnot.
    unfold values. by apply elem_of_unique.
Qed.

Lemma recorded_votes_emotion (rows : list raw_answer) (k : string)
    (wl : string * string) :
  wl ∈ recorded_votes rows k → wl.2 ∈ map emotion rows.
Proof.
  unfold recorded_votes. intros Hin.
  change (map ?f ?l) with (f <$> l) in Hin.
  apply list_elem_of_fmap in Hin as (r & -> & Hr).
  apply list_elem_of_filter in Hr as [_ Hr]. simpl.
  exact (list_elem_of_fmap_2 emotion rows r Hr).
Qed.

(** The votes coded for one candidate. *)
Lemma encode_votes_of_candidate (rows : list raw_answer) (t : Tweet) :
  ∃ vs, for_each (encode_vote (values rows) t) (recorded_votes rows (name t)) = Ok vs ∧
        valid_votes (Z.of_nat (length (values rows))) vs ∧
        map (λ v, (item v, worker v)) vs =
        map (λ wl, (name t, wl.1)) (recorded_votes rows (name t)).
Proof.
  destruct (for_each_total (encode_vote (values rows) t)
              (recorded_votes rows (name t))) as [vs Hvs].
  { intros wl Hwl. apply recorded_votes_emotion in Hwl.
    destruct (encode_vote_ok rows t wl Hwl) as (c & Hc & _). eauto. }
  exists vs. split; [done|].
  apply for_each_inv in Hvs.
  assert (Hin : ∀ wl, wl ∈ recorded_votes rows (name t) → wl.2 ∈ map emotion rows)
    by (intros wl; apply recorded_votes_emotion).
  revert Hin. induction Hvs as [|wl v wls vs Hv _ IH]; intros Hin.
  - split; [constructor|done].
  - destruct IH as [IH1 IH2]; [intros wl' Hwl'; apply Hin; by right|].
    destruct (encode_vote_ok rows t wl) as (c & Hc & Hrange); [apply Hin; left|].
    rewrite Hc in Hv. injection Hv as <-. split.
    + constructor; [done|exact IH1].
    + simpl. by rewrite IH2.
Qed.

(** On the notebook's own class list and vote lists, coding the votes of a
    split never raises; the coded votes are valid votes of the data model,
    and they are the recorded (tweet, worker) pairs of the candidates, in
    order. *)
Lemma split_votes_of_frame (rows : list raw_answer)
    (wls : gmap string (list (string * string))) (cands : list Tweet) :
  wls_agrees wls rows →
  ∃ vs, split_votes (values rows) wls cands = Ok vs ∧
        valid_votes (Z.of_nat (length (values rows))) vs ∧
        map (λ v, (item v, worker v)) vs =
        cands ≫= λ t, map (λ wl, (name t, wl.1)) (recorded_votes rows (name t)).
Proof.
  revert wls. induction cands as [|t cands IH]; intros wls Hag.
  - exists []. split_and!; [done|constructor|done].
  - simpl. destruct (generator_agrees wls rows t Hag) as [Hy Hag'].
    destruct (worker_label_generator wls t) as [yielded wls']. simpl in Hy, Hag'.
    subst yielded.
    destruct (encode_votes_of_candidate rows t) as (vs1 & -> & Hv1 & Hp1).
    destruct (IH wls' Hag') as (vs2 & -> & Hv2 & Hp2). simpl.
    exists (vs1 ++ vs2). split_and!; [done| |].
    + by apply Forall_app.
    + by rewrite map_app, Hp1, Hp2.
Qed.

(** The training matrix of the notebook is built from valid votes. *)
Lemma L_train_of_frame (rows : list raw_answer) (tweets : list Tweet) :
  ∃ votes, L_train (values rows) (build_wls (worker_labels rows)) tweets =
             Ok (build_label_matrix votes) ∧
           valid_votes (Z.of_nat (length (values rows))) votes.
Proof.
  destruct (split_votes_of_frame rows (build_wls (worker_labels rows))
              (query_split tweets 0) (build_wls_agrees rows)) as (vs & Hvs & Hvalid & _).
  exists vs. unfold L_train. by rewrite Hvs.
Qed.

(** Every row of a matrix built from valid votes holds a vote, so the
    majority vote of a built matrix never raises. *)
Lemma built_rows_have_votes (K : Z) (votes : list vote) :
  valid_votes K votes →
  Forall (λ row, row_votes row ≠ []) (rows (cells (build_label_matrix votes))).
Proof.
  intros Hvalid. apply Forall_forall. intros row Hrow. simpl in Hrow.
  change (map ?f ?l) with (f <$> l) in Hrow.
  apply list_elem_of_fmap in Hrow as (i & -> & Hi).
  apply (elem_of_build_rows votes) in Hi as (v & Hv & <-).
  destruct (cell_first_vote votes (item v) (worker v)) as (v' & _ & Hv' & _ & _ & Hc).
  { by apply votes_of_pair_elem. }
  unfold valid_votes in Hvalid. rewrite Forall_forall in Hvalid.
  specialize (Hvalid v' Hv').
  intros Hnil.
  assert (cell votes (item v) (worker v) ∈
          row_votes (map (cell votes (item v)) (unique (map worker votes)))) as Hin.
  { apply list_elem_of_filter. split; [lia|].
    apply (list_elem_of_fmap_2 (cell votes (item v))).
    apply (elem_of_build_cols votes). eauto. }
  rewrite Hnil in Hin. by apply elem_of_nil in Hin.
Qed.

Lemma mv_of_built_matrix_returns (K : Z) (votes : list vote) :
  valid_votes K votes → ∃ ls, mv (cells (build_label_matrix votes)) = Ok ls.
Proof. intros Hvalid. apply mv_returns. by apply (built_rows_have_votes K). Qed.

(** The notebook's training matrix: it is built without an exception, from
    votes of the data model; each of its rows and columns holds a vote, and
    when no (tweet, worker) pair was recorded twice its non-zero entries give
    the coded votes back. *)
Lemma L_train_sound (frame : list raw_answer) (tweets : list Tweet) :
  ∃ votes,
    L_train (values frame) (build_wls (worker_labels frame)) tweets =
      Ok (build_label_matrix votes) ∧
    valid_votes (Z.of_nat (length (values frame))) votes ∧
    Forall (λ row, row_votes row ≠ []) (rows (cells (build_label_matrix votes))) ∧
    (∀ j, (j < n_cols (cells (build_label_matrix votes)))%nat →
          (1 ≤ col_nnz (cells (build_label_matrix votes)) j)%nat) ∧
    (no_duplicate_pairs votes →
     votes_of_matrix (build_label_matrix votes) ≡ₚ votes).
Proof.
  destruct (L_train_of_frame frame tweets) as (votes & HL & Hvalid).
  exists votes. split_and!; [done..| | |].
  - by apply (built_rows_have_votes (Z.of_nat (length (values frame)))).
  - intros j Hj. by apply (built_column_nnz (Z.of_nat (length (values frame)))).
  - apply round_trip_of_nonzero_votes. by apply (valid_votes_nonzero _ _ Hvalid).
Qed.

Lemma filter_all {A} (P : A → Prop) `{∀ x, Decision (P x)} (l : list A) :
  (∀ x, x ∈ l → P x) → filter P l = l.
Proof.
  induction l as [|x l IH]; intros HP; [done|].
  rewrite filter_cons, decide_True by (apply HP; left).
  f_equal. apply IH. intros y Hy. apply HP. by right.
Qed.

Lemma filter_none {A} (P : A → Prop) `{∀ x, Decision (P x)} (l : list A) :
  (∀ x, x ∈ l → ¬ P x) → filter P l = [].
Proof.
  induction l as [|x l IH]; intros HP; [done|].
  rewrite filter_cons, decide_False by (apply HP; left).
  apply IH. intros y Hy. apply HP. by right.
Qed.

(** ** Codes by first appearance *)

Lemma length_unique_size (l : list string) :
  length (unique l) = size (list_to_set l : gset string).
Proof.
  rewrite <- (size_list_to_set (C := gset string) (unique l)) by apply NoDup_unique.
  f_equal. apply set_eq. intros x. by rewrite !elem_of_list_to_set, elem_of_unique.
Qed.

(** The code by first appearance is one plus the position in the list of
    the distinct values in order of first appearance. *)
Lemma first_appearance_code_unique (l : list string) (s : string) (z : Z) :
  first_appearance_code l s z ↔ 1 ≤ z ∧ unique l !! Z.to_nat (z - 1) = Some s.
Proof.
  split.
  - intros (pre & post & -> & Hpre & ->). split; [lia|].
    destruct (unique_first_occurrence pre post s Hpre) as [ext ->].
    replace (Z.to_nat (1 + Z.of_nat (size (list_to_set pre : gset string)) - 1))
      with (length (unique pre)) by (rewrite length_unique_size; lia).
    by rewrite list_lookup_middle.
  - intros [Hz Hk].
    assert (s ∈ l) as Hs by (apply elem_of_unique; by eapply list_elem_of_lookup_2).
    destruct (list_elem_of_split_l l s Hs) as (pre & post & -> & Hpre).
    exists pre, post. split_and!; [done..|].
    destruct (unique_first_occurrence pre post s Hpre) as [ext Hext].
    assert (unique (pre ++ s :: post) !! length (unique pre) = Some s) as Hk'
      by (by rewrite Hext, list_lookup_middle).
    pose proof (NoDup_lookup _ _ _ _ (NoDup_unique (pre ++ s :: post)) Hk Hk') as Heq.
    rewrite length_unique_size in Heq. lia.
Qed.

Lemma label_code_first_appearance (frame : list raw_answer) (s : string) (z : Z) :
  label_code (values frame) s = Ok z →
  first_appearance_code (map emotion frame) s z ∧
  1 ≤ z ≤ Z.of_nat (size (list_to_set (map emotion frame) : gset string)).
Proof.
  intros Hz. unfold label_code in Hz.
  destruct (index s (values frame)) as [k|] eqn:Hi; simpl in Hz; [|discriminate].
  injection Hz as <-. apply index_ok in Hi as [Hk _]. split.
  - apply first_appearance_code_unique. split; [lia|].
    by replace (Z.to_nat (Z.of_nat k + 1 - 1)) with k by lia.
  - apply lookup_lt_Some in Hk. unfold values in Hk.
    rewrite length_unique_size in Hk. lia.
Qed.

(** Two strings have the same code exactly when they are the same string. *)
Lemma first_appearance_code_shared (l : list string) (s1 s2 : string) (z1 z2 : Z) :
  first_appearance_code l s1 z1 → first_appearance_code l s2 z2 →
  (z1 = z2 ↔ s1 = s2).
Proof.
  intros [Hz1 H1]%first_appearance_code_unique [Hz2 H2]%first_appearance_code_unique.
  split.
  - intros ->. congruence.
  - intros ->.
    pose proof (NoDup_lookup _ _ _ _ (NoDup_unique l) H1 H2). lia.
Qed.

(** ** The coded votes of a split *)

Lemma encode_vote_coded (vals : list string) (t : Tweet) (wl : string * string) (v : vote) :
  encode_vote vals t wl = Ok v → coded vals (t, wl) v.
Proof.
  unfold encode_vote, coded.
  destruct (label_code vals wl.2) as [c|] eqn:Hc; simpl; [|discriminate].
  intros [= <-]. done.
Qed.

(** The coded votes of a split are the pairs the generator yields for its
    candidates, in order, each coded by the class list. *)
Lemma split_votes_coded (frame : list raw_answer)
    (wls : gmap string (list (string * string))) (cands : list Tweet) :
  wls_agrees wls frame →
  ∃ vs, split_votes (values frame) wls cands = Ok vs ∧
        Forall2 (coded (values frame)) (candidate_votes frame cands) vs.
Proof.
  revert wls. induction cands as [|t cands IH]; intros wls Hag.
  - exists []. split; [done|constructor].
  - simpl. destruct (generator_agrees wls frame t Hag) as [Hy Hag'].
    destruct (worker_label_generator wls t) as [yielded wls']. simpl in Hy, Hag'.
    subst yielded.
    destruct (encode_votes_of_candidate frame t) as (vs1 & Hvs1 & _ & _).
    rewrite Hvs1. destruct (IH wls' Hag') as (vs2 & -> & Hc2). simpl.
    exists (vs1 ++ vs2). split; [done|].
    change (candidate_votes frame (t :: cands))
      with (map (λ wl, (t, wl)) (recorded_votes frame (name t)) ++ candidate_votes frame cands).
    apply Forall2_app; [|exact Hc2].
    apply for_each_inv in Hvs1.
    change (map ?f ?l) with (f <$> l). apply Forall2_fmap_l.
    eapply Forall2_impl; [exact Hvs1|]. intros wl v. apply encode_vote_coded.
Qed.

Lemma Forall2_elem_of_r {A B} (R : A → B → Prop) (l : list A) (k : list B) (y : B) :
  Forall2 R l k → y ∈ k → ∃ x, x ∈ l ∧ R x y.
Proof.
  induction 1 as [|x y' l k HR _ IH]; intros Hy; [by apply elem_of_nil in Hy|].
  apply elem_of_cons in Hy as [->|Hy].
  - exists x. split; [left|done].
  - destruct (IH Hy) as (x' & Hx' & HR'). exists x'. split; [by right|done].
Qed.

Lemma elem_of_candidate_votes (frame : list raw_answer) (cands : list Tweet)
    (t : Tweet) (wl : string * string) :
  (t, wl) ∈ candidate_votes frame cands ↔ t ∈ cands ∧ wl ∈ recorded_votes frame (name t).
Proof.
  unfold candidate_votes. rewrite list_elem_of_bind. split.
  - intros (t' & Hin & Ht'). change (map ?f ?l) with (f <$> l) in Hin.
    apply list_elem_of_fmap in Hin as (wl' & [= -> ->] & Hwl). done.
  - intros [Ht Hwl]. exists t. split; [|done].
    exact (list_elem_of_fmap_2 (λ wl, (t, wl)) _ wl Hwl).
Qed.

Lemma Forall2_filter_compat {A B} (R : A → B → Prop) (P : A → Prop) (Q : B → Prop)
    `{∀ x, Decision (P x)} `{∀ y, Decision (Q y)} (l : list A) (k : list B) :
  (∀ x y, R x y → (P x ↔ Q y)) →
  Forall2 R l k → Forall2 R (filter P l) (filter Q k).
Proof.
  intros HPQ. induction 1 as [|x y l k HR _ IH]; [constructor|].
  rewrite !filter_cons. destruct (decide (P x)) as [HP|HP].
  - rewrite decide_True by (by apply (HPQ x y)). by constructor.
  - rewrite decide_False by (by rewrite <- (HPQ x y)). exact IH.
Qed.

(** Among the yielded pairs, those of the tweet [i] and the worker [w]: for
    every candidate named [i], in order, the pairs of [w] among the votes
    recorded for [i]. *)
Lemma candidate_votes_of_pair (frame : list raw_answer) (cands : list Tweet)
    (i w : string) :
  map snd (filter (λ twl : Tweet * (string * string), name twl.1 = i ∧ twl.2.1 = w)
                  (candidate_votes frame cands)) =
  filter (λ t, name t = i) cands ≫= λ _,
    filter (λ wl : string * string, wl.1 = w) (recorded_votes frame i).
Proof.
  unfold candidate_votes. induction cands as [|t cands IH]; [done|].
  rewrite bind_cons, filter_app, map_app, IH, (filter_cons _ t). clear IH.
  assert (map snd (filter (λ twl : Tweet * (string * string), name twl.1 = i ∧ twl.2.1 = w)
                          (map (λ wl, (t, wl)) (recorded_votes frame (name t)))) =
          if decide (name t = i)
          then filter (λ wl : string * string, wl.1 = w) (recorded_votes frame i)
          else []) as ->.
  { destruct (decide (name t = i)) as [Heq|Hne].
    - rewrite <- Heq.
      induction (recorded_votes frame (name t)) as [|wl l IHl]; [done|].
      simpl map. rewrite !filter_cons. simpl.
      destruct (decide (wl.1 = w)).
      + rewrite decide_True by done. simpl. by rewrite IHl.
      + rewrite decide_False by tauto. exact IHl.
    - rewrite filter_none; [done|].
      intros [t' wl'] Hin [Hn _]. change (map ?f ?l) with (f <$> l) in Hin.
      apply list_elem_of_fmap in Hin as (? & [= -> ->] & _). done. }
  destruct (decide (name t = i)); [by rewrite bind_cons|done].
Qed.

(** C1: the vote lists and the generator pass every recorded pair through,
    duplicates of an (item, worker) pair included, and the pipeline keeps the
    first-seen vote: for a candidate of the training split and a worker whose
    first recorded vote on the candidate's tweet is the emotion [e], the
    training matrix is built without exception, has a row for the tweet and a
    column for the worker, and the entry there is the code of [e], and the
    code of no other emotion, whatever the worker voted on that tweet later. *)
Theorem duplicate_votes_keep_first_seen (frame : list raw_answer)
    (tweets : list Tweet) (t : Tweet) (w e : string) :
  t ∈ query_split tweets 0 →
  head (filter (λ wl : string * string, wl.1 = w) (recorded_votes frame (name t)))
    = Some (w, e) →
  (worker_label_generator (build_wls (worker_labels frame)) t).1
    = recorded_votes frame (name t) ∧
  ∃ votes c,
    L_train (values frame) (build_wls (worker_labels frame)) tweets
      = Ok (build_label_matrix votes) ∧
    label_code (values frame) e = Ok c ∧
    name t ∈ row_items (build_label_matrix votes) ∧
    w ∈ col_workers (build_label_matrix votes) ∧
    ∀ r k, row_items (build_label_matrix votes) !! r = Some (name t) →
           col_workers (build_label_matrix votes) !! k = Some w →
           matrix_get (cells (build_label_matrix votes)) r k = c ∧
           ∀ e' c', e' ≠ e → label_code (values frame) e' = Ok c' →
                    matrix_get (cells (build_label_matrix votes)) r k ≠ c'.
Proof.
  intros Ht Hfirst. split.
  { unfold worker_label_generator, worker_labels.
    rewrite defaultdict_getitem_fst. apply build_wls_lookup. }
  destruct (split_votes_coded frame (build_wls (worker_labels frame))
              (query_split tweets 0) (build_wls_agrees frame)) as (votes & Hvotes & Hcoded).
  set (P := λ twl : Tweet * (string * string), name twl.1 = name t ∧ twl.2.1 = w).
  set (Q := λ v : vote, item v = name t ∧ worker v = w).
  assert (Hfilter : Forall2 (coded (values frame))
                      (filter P (candidate_votes frame (query_split tweets 0)))
                      (votes_of_pair votes (name t) w)).
  { apply (Forall2_filter_compat _ P Q); [|done].
    intros [t' wl] v (Hi & Hw & _). unfold P, Q. simpl in *. by rewrite Hi, Hw. }
  pose proof (candidate_votes_of_pair frame (query_split tweets 0) (name t) w) as Hpairs.
  fold P in Hpairs.
  assert (∃ rest, filter (λ t', name t' = name t) (query_split tweets 0) = t :: rest
                  ∨ ∃ t', filter (λ t', name t' = name t) (query_split tweets 0)
                          = t' :: rest) as [rest Hcands].
  { assert (t ∈ filter (λ t', name t' = name t) (query_split tweets 0)) as Hin
      by (by apply list_elem_of_filter).
    destruct (filter _ (query_split tweets 0)) as [|t' rest]; [by apply elem_of_nil in Hin|].
    exists rest. right. by exists t'. }
  assert (∃ rest', map snd (filter P (candidate_votes frame (query_split tweets 0)))
                   = (w, e) :: rest') as [rest' Hhead].
  { rewrite Hpairs.
    destruct (filter (λ wl : string * string, wl.1 = w) (recorded_votes frame (name t)))
      as [|wl wls'] eqn:Hf; [discriminate|]. simpl in Hfirst. injection Hfirst as ->.
    destruct Hcands as [->|[t' ->]]; rewrite bind_cons; simpl; eauto. }
  destruct (filter P (candidate_votes frame (query_split tweets 0)))
    as [|[t' wl] pairs] eqn:HP; [discriminate|].
  simpl in Hhead. injection Hhead as -> _.
  inversion Hfilter as [|twl v pairs' vs' (Hi & Hw & Hc) _ Heq1 Heq2]; subst.
  simpl in Hi, Hw, Hc.
  assert (v ∈ votes) as Hv.
  { assert (v ∈ votes_of_pair votes (name t) w) as Hin by (rewrite <- Heq2; left).
    unfold votes_of_pair in Hin. by apply list_elem_of_filter in Hin as [_ ?]. }
  assert (item v = name t) as Hitem.
  { assert (v ∈ votes_of_pair votes (name t) w) as Hin by (rewrite <- Heq2; left).
    unfold votes_of_pair in Hin. by apply list_elem_of_filter in Hin as [[? _] _]. }
  exists votes, (label v). split_and!.
  - unfold L_train. by rewrite Hvotes.
  - exact Hc.
  - apply elem_of_build_rows. eauto.
  - apply elem_of_build_cols. eauto.
  - intros r k Hr Hk. rewrite (build_matrix_get votes r k (name t) w Hr Hk).
    assert (cell votes (name t) w = label v) as -> by (unfold cell; by rewrite <- Heq2).
    split; [done|]. intros e' c' Hne Hc' Heq.
    apply label_code_first_appearance in Hc as [Hc _].
    apply label_code_first_appearance in Hc' as [Hc' _].
    apply Hne. symmetry.
    by apply (first_appearance_code_shared _ _ _ _ _ Hc Hc').
Qed.

(** The conflicting answers of worker 7 on tweet 1: the matrix holds the
    code of "Positive", the vote seen first, not that of "Negative". *)
Example L_train_conflicting_answers :
  L_train (values conflicting_answers) (build_wls (worker_labels conflicting_answers))
          one_candidate
  = Ok (LabelMatrix ["1"] ["7"] (Matrix [[1]] 1)) ∧
  label_code (values conflicting_answers) "Positive" = Ok 1 ∧
  label_code (values conflicting_answers) "Negative" = Ok 2.
Proof. split_and!; reflexivity. Qed.

(** C10: when every stored candidate is in split 0 or 1 and is named after a
    tweet of the joined frame (cells 15 and 16), every candidate has a gold
    sentiment string; the computation raises, and then a [ValueError], if
    and only if the gold sentiment string of some candidate is no emotion of
    the joined frame; a gold label that is computed is the code of the
    candidate's gold sentiment by first appearance in the emotion column of
    the joined frame, a code in [1..K] for [K] the number of distinct
    emotions.  That code is one plus the position of the string in
    [values], which lists the emotions without repetition and has length
    [K]; the labels stored in the training matrix are the codes, by the same
    first appearance, of the emotions the workers chose; and two strings
    have the same code exactly when they are the same string. *)
Theorem gold_labels_encoding (raw : list raw_answer)
    (gold : list gold_crowd_answer) (tweets : list Tweet) :
  (∀ c, c ∈ tweets →
        (split c = 0 ∨ split c = 1) ∧
        ∃ r, r ∈ candidate_labeled_tweets raw gold ∧ name c = str (tweet_id r)) →
  (∀ c, c ∈ tweets → is_Some (verbose_labels (gold_answers gold) !! name c)) ∧
  ((∃ e, gold_labels (values (candidate_labeled_tweets raw gold))
                     (verbose_labels (gold_answers gold)) tweets = Raise e) ↔
   ∃ c s, c ∈ tweets ∧ verbose_labels (gold_answers gold) !! name c = Some s ∧
          s ∉ map emotion (candidate_labeled_tweets raw gold)) ∧
  (∀ e, gold_labels (values (candidate_labeled_tweets raw gold))
                    (verbose_labels (gold_answers gold)) tweets = Raise e →
        e = ValueError) ∧
  (∀ g0 g1, gold_labels (values (candidate_labeled_tweets raw gold))
                        (verbose_labels (gold_answers gold)) tweets = Ok (g0, g1) →
     Forall2 (gold_code_of (map emotion (candidate_labeled_tweets raw gold))
                           (verbose_labels (gold_answers gold)))
             (query_split tweets 0) g0 ∧
     Forall2 (gold_code_of (map emotion (candidate_labeled_tweets raw gold))
                           (verbose_labels (gold_answers gold)))
             (query_split tweets 1) g1) ∧
  NoDup (values (candidate_labeled_tweets raw gold)) ∧
  Z.of_nat (length (values (candidate_labeled_tweets raw gold))) =
    Z.of_nat (size (list_to_set (map emotion (candidate_labeled_tweets raw gold))
                    : gset string)) ∧
  (∀ s z, first_appearance_code (map emotion (candidate_labeled_tweets raw gold)) s z ↔
          1 ≤ z ∧ values (candidate_labeled_tweets raw gold) !! Z.to_nat (z - 1) = Some s) ∧
  (∃ votes,
     L_train (values (candidate_labeled_tweets raw gold))
             (build_wls (worker_labels (candidate_labeled_tweets raw gold))) tweets
       = Ok (build_label_matrix votes) ∧
     Forall (vote_code_of (candidate_labeled_tweets raw gold)) votes) ∧
  (∀ s1 s2 z1 z2,
     first_appearance_code (map emotion (candidate_labeled_tweets raw gold)) s1 z1 →
     first_appearance_code (map emotion (candidate_labeled_tweets raw gold)) s2 z2 →
     (z1 = z2 ↔ s1 = s2)).
Proof.
  intros Hpipe.
  set (clt := candidate_labeled_tweets raw gold) in *.
  set (vl := verbose_labels (gold_answers gold)).
  assert (Hgold : ∀ c, c ∈ tweets → is_Some (vl !! name c)).
  { intros c Hc. destruct (Hpipe c Hc) as (_ & r & Hr & ->).
    eapply joined_tweet_has_gold. exact Hr. }
  assert (Hbody : ∀ c e, c ∈ tweets →
            gold_label (values clt) vl c = Raise e ↔
            ∃ s, vl !! name c = Some s ∧ (s ∉ map emotion clt) ∧ e = ValueError).
  { intros c e Hc. unfold gold_label, dict_getitem.
    destruct (Hgold c Hc) as [s Hs]. rewrite Hs. simpl.
    rewrite label_code_raise. unfold values. rewrite elem_of_unique. split.
    - intros [Hnot ->]. eauto.
    - intros (s' & [= <-] & Hnot & ->). done. }
  split_and!.
  - exact Hgold.
  - split.
    + intros [e He]. apply gold_labels_raise_inv in He as (c & Hc & Hr).
      apply Hbody in Hr as (s & Hs & Hnot & _); [|done]. eauto.
    + intros (c & s & Hc & Hs & Hnot).
      apply (gold_labels_raise_intro _ _ _ c ValueError); [done|by apply Hpipe|].
      apply Hbody; [done|]. eauto.
  - intros e He. apply gold_labels_raise_inv in He as (c & Hc & Hr).
    apply Hbody in Hr as (s & _ & _ & ->); done.
  - intros g0 g1. unfold gold_labels.
    destruct (for_each _ (query_split tweets 0)) as [g0'|] eqn:H0; simpl; [|discriminate].
    destruct (for_each _ (query_split tweets 1)) as [g1'|] eqn:H1; simpl; [|discriminate].
    intros [= <- <-].
    assert (Hcodes : ∀ cs zs, for_each (gold_label (values clt) vl) cs = Ok zs →
              Forall2 (gold_code_of (map emotion clt) vl) cs zs).
    { intros cs zs Hfe. apply for_each_inv in Hfe.
      eapply Forall2_impl; [exact Hfe|]. simpl. intros c z Hz.
      unfold gold_label, dict_getitem in Hz.
      destruct (vl !! name c) as [sc|] eqn:Hsc; simpl in Hz; [|discriminate].
      exists sc. split; [done|]. by apply label_code_first_appearance. }
    split; by apply Hcodes.
  - apply NoDup_unique.
  - unfold values. by rewrite length_unique_size.
  - intros s z. apply first_appearance_code_unique.
  - destruct (split_votes_coded clt (build_wls (worker_labels clt))
                (query_split tweets 0) (build_wls_agrees clt)) as (votes & Hvotes & Hcoded).
    exists votes. split; [unfold L_train; by rewrite Hvotes|].
    apply Forall_forall. intros v Hv.
    destruct (Forall2_elem_of_r _ _ _ v Hcoded Hv) as ([t wl] & Hin & Hi & Hw & Hc).
    simpl in *. apply elem_of_candidate_votes in Hin as [_ Hwl].
    exists wl.2. split.
    + rewrite Hi, Hw. by destruct wl.
    + by apply label_code_first_appearance.
  - intros s1 s2 z1 z2. apply first_appearance_code_shared.
Qed.

(** ** The theorems at concrete inputs *)

Lemma mv_first_most_frequent_witness :
  rows (Matrix [tied_row] 2) !! 0%nat = Some tied_row ∧
  row_votes tied_row ≠ [] ∧
  ∃ l, mv_at (Matrix [tied_row] 2) 0 = Ok l ∧
       first_most_frequent (row_votes tied_row) l ∧
       ∀ ls, mv (Matrix [tied_row] 2) = Ok ls → ls !! 0%nat = Some l.
Proof.
  assert (H1 : rows (Matrix [tied_row] 2) !! 0%nat = Some tied_row) by reflexivity.
  assert (H2 : row_votes tied_row ≠ []) by (vm_compute; discriminate).
  split_and!; [exact H1|exact H2|].
  exact (mv_first_most_frequent (Matrix [tied_row] 2) 0 tied_row H1 H2).
Defined.

Lemma mv_fails_on_empty_row_witness :
  [0; 0] ∈ rows matrix_with_empty_row ∧
  Forall (λ x, x = 0) [0; 0] ∧
  mv matrix_with_empty_row = Raise IndexError.
Proof.
  assert (H1 : [0; 0] ∈ rows matrix_with_empty_row) by (right; left).
  assert (H2 : Forall (λ x : Z, x = 0) [0; 0]) by (repeat constructor).
  split_and!; [exact H1|exact H2|].
  exact (mv_fails_on_empty_row matrix_with_empty_row [0; 0] H1 H2).
Defined.

Lemma scenario_votes_valid : valid_votes 2 scenario_votes.
Proof. unfold valid_votes, scenario_votes. repeat constructor; simpl; lia. Qed.

Lemma scenario_votes_no_duplicate_pairs : no_duplicate_pairs scenario_votes.
Proof. unfold no_duplicate_pairs. compute_done. Qed.

Lemma label_matrix_round_trip_witness :
  valid_votes 2 scenario_votes ∧
  no_duplicate_pairs scenario_votes ∧
  votes_of_matrix (build_label_matrix scenario_votes) ≡ₚ scenario_votes.
Proof.
  split_and!; [exact scenario_votes_valid|exact scenario_votes_no_duplicate_pairs|].
  exact (label_matrix_round_trip 2 scenario_votes scenario_votes_valid
           scenario_votes_no_duplicate_pairs).
Defined.

Lemma label_matrix_invariants_witness :
  valid_votes 2 scenario_votes ∧
  shape (cells (build_label_matrix scenario_votes)) =
    (length (row_items (build_label_matrix scenario_votes)),
     length (col_workers (build_label_matrix scenario_votes))).
Proof.
  split; [exact scenario_votes_valid|].
  exact (proj1 (proj2 (proj2 (proj2 (proj2 (proj2
    (label_matrix_invariants 2 scenario_votes scenario_votes_valid))))))).
Defined.

Lemma worker_columns_have_votes_witness :
  valid_votes 2 scenario_votes ∧
  ∀ j, (j < (shape (cells (build_label_matrix scenario_votes))).2)%nat →
       (1 ≤ col_nnz (cells (build_label_matrix scenario_votes)) j)%nat.
Proof.
  split; [exact scenario_votes_valid|].
  exact (proj1 (worker_columns_have_votes 2 scenario_votes [1; 2; 1]
                  scenario_votes_valid)).
Defined.

(** The gold label of the one candidate: "Positive" is the first class. *)
Example gold_labels_one_candidate :
  gold_labels (values (candidate_labeled_tweets two_raw_answers one_gold_row))
              (verbose_labels (gold_answers one_gold_row)) one_candidate
  = Ok ([1], []).
Proof. reflexivity. Qed.

(** A gold sentiment that is no crowd vote: [values.index] raises. *)
Example gold_labels_unseen_sentiment :
  gold_labels (values (candidate_labeled_tweets two_raw_answers unseen_gold_row))
              (verbose_labels (gold_answers unseen_gold_row)) one_candidate
  = Raise ValueError.
Proof. reflexivity. Qed.

(** The joined frame of the three answers lists tweet 2 first: its classes
    are "Negative", then "Positive", each once, although "Negative" was
    voted twice. *)
Example values_three_raw_answers :
  map emotion (candidate_labeled_tweets three_raw_answers two_gold_rows)
    = ["Negative"; "Negative"; "Positive"] ∧
  values (candidate_labeled_tweets three_raw_answers two_gold_rows)
    = ["Negative"; "Positive"] ∧
  gold_labels (values (candidate_labeled_tweets three_raw_answers two_gold_rows))
              (verbose_labels (gold_answers two_gold_rows)) two_candidates
    = Ok ([2], [1]) ∧
  L_train (values (candidate_labeled_tweets three_raw_answers two_gold_rows))
          (build_wls (worker_labels (candidate_labeled_tweets three_raw_answers
                                       two_gold_rows))) two_candidates
    = Ok (LabelMatrix ["1"] ["7"] (Matrix [[2]] 1)).
Proof. split_and!; reflexivity. Qed.

Lemma two_candidates_of_frame :
  ∀ c, c ∈ two_candidates →
       (split c = 0 ∨ split c = 1) ∧
       ∃ r, r ∈ candidate_labeled_tweets three_raw_answers two_gold_rows ∧
            name c = str (tweet_id r).
Proof.
  intros c Hc. unfold two_candidates in Hc.
  apply elem_of_cons in Hc as [->|Hc]; [|apply list_elem_of_singleton in Hc as ->].
  - split; [by left|].
    exists (RawAnswer 1 "sunny again" 7 "Positive"). split; [|reflexivity].
    compute_done.
  - split; [by right|].
    exists (RawAnswer 2 "rain all day" 8 "Negative"). split; [|reflexivity].
    compute_done.
Qed.

Lemma gold_labels_encoding_witness :
  (∀ c, c ∈ two_candidates →
        (split c = 0 ∨ split c = 1) ∧
        ∃ r, r ∈ candidate_labeled_tweets three_raw_answers two_gold_rows ∧
             name c = str (tweet_id r)) ∧
  Forall2 (gold_code_of (map emotion (candidate_labeled_tweets three_raw_answers
                                        two_gold_rows))
                        (verbose_labels (gold_answers two_gold_rows)))
          (query_split two_candidates 0) [2] ∧
  Forall2 (gold_code_of (map emotion (candidate_labeled_tweets three_raw_answers
                                        two_gold_rows))
                        (verbose_labels (gold_answers two_gold_rows)))
          (query_split two_candidates 1) [1].
Proof.
  split; [exact two_candidates_of_frame|].
  exact (proj1 (proj2 (proj2 (proj2
    (gold_labels_encoding three_raw_answers two_gold_rows two_candidates
       two_candidates_of_frame)))) [2] [1] eq_refl).
Defined.

Lemma duplicate_votes_keep_first_seen_witness :
  mkTweet "1" 0 ∈ query_split one_candidate 0 ∧
  head (filter (λ wl : string * string, wl.1 = "7")
               (recorded_votes conflicting_answers "1")) = Some ("7", "Positive") ∧
  (worker_label_generator (build_wls (worker_labels conflicting_answers))
                          (mkTweet "1" 0)).1
    = recorded_votes conflicting_answers "1" ∧
  ∃ votes c,
    L_train (values conflicting_answers) (build_wls (worker_labels conflicting_answers))
            one_candidate = Ok (build_label_matrix votes) ∧
    label_code (values conflicting_answers) "Positive" = Ok c ∧
    "1" ∈ row_items (build_label_matrix votes) ∧
    "7" ∈ col_workers (build_label_matrix votes) ∧
    ∀ r k, row_items (build_label_matrix votes) !! r = Some "1" →
           col_workers (build_label_matrix votes) !! k = Some "7" →
           matrix_get (cells (build_label_matrix votes)) r k = c ∧
           ∀ e' c', e' ≠ "Positive" →
                    label_code (values conflicting_answers) e' = Ok c' →
                    matrix_get (cells (build_label_matrix votes)) r k ≠ c'.
Proof.
  assert (H1 : mkTweet "1" 0 ∈ query_split one_candidate 0) by (vm_compute; left).
  assert (H2 : head (filter (λ wl : string * string, wl.1 = "7")
                            (recorded_votes conflicting_answers "1"))
               = Some ("7", "Positive")) by reflexivity.
  split; [exact H1|]. split; [exact H2|].
  exact (duplicate_votes_keep_first_seen conflicting_answers one_candidate
           (mkTweet "1" 0) "7" "Positive" H1 H2).
Defined.

(** * Further properties of the notebook's code *)

(** ** The join, row by row *)

Lemma gold_answers_count (gold : list gold_crowd_answer) (n : Z) :
  length (filter (λ g, g_tweet_id g = n) (gold_answers gold)) =
  validated_gold_count gold n.
Proof.
  unfold gold_answers, validated_gold_count.
  induction gold as [|g gold IH]; [done|].
  rewrite !filter_cons. destruct (decide (validated g = true)) as [Hv|Hv].
  - simpl. rewrite filter_cons. simpl.
    destruct (decide (gc_tweet_id g = n)) as [Hn|Hn].
    + rewrite decide_True by done. simpl. by rewrite IH.
    + rewrite decide_False by tauto. exact IH.
  - rewrite decide_False by tauto. exact IH.
Qed.

Lemma map_bind {A B C} (h : B → C) (f : A → list B) (l : list A) :
  map h (l ≫= f) = l ≫= λ x, map h (f x).
Proof.
  induction l as [|x l IH]; [done|]. by rewrite !bind_cons, map_app, IH.
Qed.

Lemma bind_ext_in {A B} (f g : A → list B) (l : list A) :
  (∀ x, x ∈ l → f x = g x) → l ≫= f = l ≫= g.
Proof.
  induction l as [|x l IH]; intros Hfg; [done|].
  rewrite !bind_cons, (Hfg x) by left. f_equal. apply IH.
  intros y Hy. apply Hfg. by right.
Qed.

Lemma bind_nil_all {A B} (l : list A) : l ≫= (λ _, @nil B) = [].
Proof. induction l as [|x l IH]; [done|]. by rewrite bind_cons, IH. Qed.


Lemma bind_app_perm {A B} (a b : A → list B) (l : list A) :
  l ≫= (λ x, a x ++ b x) ≡ₚ (l ≫= a) ++ (l ≫= b).
Proof.
  induction l as [|x l IH]; [done|].
  rewrite !bind_cons, IH, <- !app_assoc. apply Permutation_app_head.
  apply Permutation_app_swap_app.
Qed.

(** Of distinct keys at most one is the given one. *)
Lemma bind_pick {B} (keys : list Z) (k : Z) (ys : list B) :
  NoDup keys → k ∈ keys →
  keys ≫= (λ n, if decide (k = n) then ys else []) = ys.
Proof.
  induction keys as [|n keys IH]; intros Hnd Hk; [by apply elem_of_nil in Hk|].
  apply NoDup_cons in Hnd as [Hn Hnd]. rewrite bind_cons.
  destruct (decide (k = n)) as [->|Hne].
  - rewrite (bind_ext_in _ (λ _ : Z, @nil B) keys).
    + by rewrite bind_nil_all, app_nil_r.
    + intros n' Hn'. rewrite decide_False; [done|]. by intros ->.
  - apply elem_of_cons in Hk as [?|Hk]; [done|]. by rewrite IH.
Qed.

(** Reading a list key by key rearranges it. *)
Lemma group_by_key_perm {A B} (key : A → Z) (f : A → list B)
    (keys : list Z) (l : list A) :
  NoDup keys → (∀ x, x ∈ l → key x ∈ keys) →
  keys ≫= (λ n, filter (λ x, key x = n) l ≫= f) ≡ₚ l ≫= f.
Proof.
  intros Hnd. induction l as [|x l IH]; intros Hkeys.
  - rewrite (bind_ext_in _ (λ _ : Z, @nil B) keys) by done. by rewrite bind_nil_all.
  - rewrite (bind_ext_in _ (λ n, (if decide (key x = n) then f x else []) ++
                                 (filter (λ y, key y = n) l ≫= f))).
    + rewrite bind_app_perm, bind_pick, IH; [done| | |].
      * intros y Hy. apply Hkeys. by right.
      * done.
      * apply Hkeys. left.
    + intros n _. rewrite filter_cons. destruct (decide (key x = n)); [|done].
      by rewrite bind_cons.
Qed.

(** In a list read key by key, the elements of one key are its block. *)
Lemma bind_filter_key {A} (key : A → Z) (f : Z → list A) (keys : list Z) (n : Z) :
  NoDup keys → (∀ k x, x ∈ f k → key x = k) →
  filter (λ x, key x = n) (keys ≫= f) = if decide (n ∈ keys) then f n else [].
Proof.
  intros Hnd Hf. induction keys as [|k keys IH].
  - by destruct (decide _) as [H|_]; [apply elem_of_nil in H|].
  - apply NoDup_cons in Hnd as [Hk Hnd]. rewrite bind_cons, filter_app, IH by done.
    destruct (decide (k = n)) as [->|Hne].
    + destruct (decide (n ∈ keys)) as [|_]; [done|].
      destruct (decide (n ∈ n :: keys)) as [_|Hn]; [|exfalso; apply Hn; left].
      rewrite app_nil_r. apply filter_all. intros x Hx. by apply (Hf n).
    + rewrite (filter_none _ (f k)).
      * simpl. destruct (decide (n ∈ keys)) as [Hin|Hin].
        -- by rewrite decide_True by (by right).
        -- rewrite decide_False; [done|]. rewrite not_elem_of_cons. split; [congruence|done].
      * intros x Hx Hkey. apply Hne. rewrite <- Hkey. symmetry. by apply (Hf k).
Qed.

(** The left halves of the joined rows, key by key. *)
Lemma join_replicates (raw : list raw_answer) (gold : list gold_answer) :
  map fst (inner_join raw gold) =
  unique (map tweet_id raw) ≫= λ n,
    filter (λ r, tweet_id r = n) raw ≫= λ r,
      replicate (length (filter (λ g, g_tweet_id g = n) gold)) r.
Proof.
  unfold inner_join. rewrite map_bind. apply list_bind_ext; [|done]. intros n.
  rewrite map_bind. apply list_bind_ext; [|done]. intros r.
  generalize (filter (λ g, g_tweet_id g = n) gold). intros gs.
  induction gs as [|g gs IHg]; [done|]. simpl. by rewrite IHg.
Qed.

(** The joined rows of one tweet: its raw answers in raw order, each once
    per gold row of the tweet. *)
Lemma join_per_tweet (raw : list raw_answer) (gold : list gold_answer) (n : Z) :
  filter (λ r, tweet_id r = n) (map fst (inner_join raw gold)) =
  filter (λ r, tweet_id r = n) raw ≫= λ r,
    replicate (length (filter (λ g, g_tweet_id g = n) gold)) r.
Proof.
  rewrite join_replicates, (bind_filter_key tweet_id).
  - destruct (decide (n ∈ unique (map tweet_id raw))) as [|Hn]; [done|].
    rewrite (filter_none _ raw); [done|].
    intros r Hr Hid. apply Hn. apply elem_of_unique. rewrite <- Hid.
    exact (list_elem_of_fmap_2 tweet_id raw r Hr).
  - apply NoDup_unique.
  - intros k r Hr. apply list_elem_of_bind in Hr as (r' & Hr & Hr').
    apply list_elem_of_filter in Hr' as [Hid _].
    apply elem_of_replicate in Hr as [-> _]. done.
Qed.

(** The joined rows as a multiset: every raw answer once per gold row of
    its tweet. *)
Lemma join_perm (raw : list raw_answer) (gold : list gold_answer) :
  map fst (inner_join raw gold) ≡ₚ
  raw ≫= λ r, replicate (length (filter (λ g, g_tweet_id g = tweet_id r) gold)) r.
Proof.
  rewrite join_replicates.
  rewrite <- (group_by_key_perm tweet_id
                (λ r, replicate (length (filter (λ g, g_tweet_id g = tweet_id r) gold)) r)
                (unique (map tweet_id raw)) raw).
  - apply reflexive_eq. apply list_bind_ext; [|done]. intros n.
    apply bind_ext_in. intros r Hr. apply list_elem_of_filter in Hr as [-> _]. done.
  - apply NoDup_unique.
  - intros r Hr. apply elem_of_unique. exact (list_elem_of_fmap_2 tweet_id raw r Hr).
Qed.

(** X1: the joined frame holds every raw answer once per validated gold
    row that carries its tweet id: an answer without such a row is dropped,
    an answer whose tweet has two validated gold rows is kept twice.  The
    rows of one tweet stand together, the tweets in the order of their first
    raw answer, and the answers of one tweet in raw order; as a multiset the
    frame is the raw frame with every answer repeated. *)
Theorem join_multiplicity (raw : list raw_answer) (gold : list gold_crowd_answer) :
  candidate_labeled_tweets raw gold =
    (unique (map tweet_id raw) ≫= λ n,
       filter (λ r, tweet_id r = n) raw ≫= λ r,
         replicate (validated_gold_count gold n) r) ∧
  candidate_labeled_tweets raw gold ≡ₚ
    raw ≫= λ r, replicate (validated_gold_count gold (tweet_id r)) r.
Proof.
  unfold candidate_labeled_tweets. split.
  - rewrite join_replicates. apply list_bind_ext; [|done]. intros n.
    by rewrite gold_answers_count.
  - rewrite join_perm. apply reflexive_eq. apply list_bind_ext; [|done].
    intros r. by rewrite gold_answers_count.
Qed.



(** ** The class list *)

Lemma unique_cons `{EqDecision A} (x : A) (l : list A) :
  unique (x :: l) = x :: filter (λ y, y ≠ x) (unique l).
Proof.
  induction l as [|y l IH] using rev_ind; [done|].
  rewrite app_comm_cons, !unique_snoc, IH.
  destruct (decide (y = x)) as [->|Hne].
  - rewrite decide_True by left.
    destruct (decide (x ∈ unique l)); [done|].
    rewrite filter_app, filter_cons, filter_nil, decide_False by (intros H; by apply H).
    by rewrite app_nil_r.
  - destruct (decide (y ∈ unique l)) as [Hin|Hin].
    + rewrite decide_True; [done|]. right. by apply list_elem_of_filter.
    + rewrite decide_False.
      * rewrite filter_app, filter_cons, filter_nil, decide_True by done. done.
      * rewrite elem_of_cons, list_elem_of_filter. tauto.
Qed.

(** X3: the class list holds every emotion of the frame exactly once, in
    order of first appearance: the emotion of the first row comes first,
    followed by the classes of the remaining rows without it. *)
Theorem values_first_appearance (r : raw_answer) (frame : list raw_answer) :
  NoDup (values (r :: frame)) ∧
  (∀ s, s ∈ values (r :: frame) ↔ ∃ r', r' ∈ r :: frame ∧ emotion r' = s) ∧
  values (r :: frame) = emotion r :: filter (λ s, s ≠ emotion r) (values frame).
Proof.
  split_and!.
  - apply NoDup_unique.
  - intros s. unfold values. rewrite elem_of_unique.
    change (map emotion (r :: frame)) with (emotion <$> r :: frame).
    rewrite list_elem_of_fmap. split; intros (r' & H1 & H2); eauto.
  - unfold values. simpl. apply unique_cons.
Qed.

(** X4: coding a class and reading the class list at the code minus one are
    inverse to each other: [values.index(s) + 1] returns [c] exactly when
    [c] is at least one and the class at position [c - 1] is [s]. *)
Theorem label_code_round_trip (frame : list raw_answer) (s : string) (c : Z) :
  label_code (values frame) s = Ok c ↔
  1 ≤ c ∧ values frame !! Z.to_nat (c - 1) = Some s.
Proof.
  unfold label_code. split.
  - destruct (index s (values frame)) as [k|] eqn:Hi; simpl; [|discriminate].
    intros [= <-]. apply index_ok in Hi as [Hk _]. split; [lia|].
    by replace (Z.to_nat (Z.of_nat k + 1 - 1)) with k by lia.
  - intros [Hc Hk].
    assert (index s (values frame) = Ok (Z.to_nat (c - 1))) as ->.
    { apply index_ok. split; [done|]. intros Hin.
      apply elem_of_take in Hin as (i & Hi & Hlt).
      assert (i = Z.to_nat (c - 1)); [|lia].
      eapply NoDup_lookup; [apply (NoDup_unique (map emotion frame))|exact Hi|exact Hk]. }
    simpl. f_equal. lia.
Qed.

(** ** The gold dictionary *)

(** X5: the gold dictionary maps the printed id of a tweet to the sentiment
    of the last gold row with that id, and has no entry when there is no
    such row: of two gold rows for one tweet the later one wins, and rows of
    different tweets never meet on a key. *)
Theorem verbose_labels_last_wins (gold : list gold_answer) (n : Z) :
  verbose_labels gold !! str n =
  sentiment <$> last (filter (λ g, g_tweet_id g = n) gold).
Proof.
  induction gold as [|g gold IH] using rev_ind.
  - unfold verbose_labels. simpl. by rewrite lookup_empty.
  - rewrite verbose_labels_snoc, filter_app, filter_cons, filter_nil.
    destruct (decide (g_tweet_id g = n)) as [<-|Hne].
    + by rewrite lookup_insert_eq, last_snoc.
    + rewrite app_nil_r, lookup_insert_ne; [done|].
      unfold str. intros Heq. by apply (inj pretty) in Heq.
Qed.

(** ** The vote lists *)

Lemma filter_str_eq (frame : list raw_answer) (n : Z) :
  filter (λ r, str (tweet_id r) = str n) frame = filter (λ r, tweet_id r = n) frame.
Proof.
  induction frame as [|r frame IH]; [done|].
  rewrite !filter_cons, IH. destruct (decide (tweet_id r = n)) as [->|Hne].
  - by rewrite decide_True.
  - rewrite decide_False; [done|]. unfold str. intros Heq.
    by apply (inj pretty) in Heq.
Qed.

(** X6: [wls] has a key for exactly the tweets of the frame, and under the
    printed id of a tweet it holds the (worker, emotion) pairs of the rows
    with that tweet id, in row order; printing the ids merges no two
    tweets. *)
Theorem wls_by_tweet_id (frame : list raw_answer) (n : Z) :
  build_wls (worker_labels frame) !! str n =
  match filter (λ r, tweet_id r = n) frame with
  | [] => None
  | r :: rs => Some (map (λ r, (str (worker_id r), emotion r)) (r :: rs))
  end.
Proof.
  destruct (build_wls_lookup frame (str n)) as [Hval Hdom].
  unfold worker_labels. unfold recorded_votes in Hval. rewrite filter_str_eq in Hval.
  destruct (filter (λ r, tweet_id r = n) frame) as [|r rs] eqn:Hf.
  - destruct (build_wls frame !! str n) as [l|] eqn:Hl; [|done].
    exfalso. destruct Hdom as [Hdom _].
    destruct Hdom as (r & Hr & Hk); [eauto|].
    unfold str in Hk. apply (inj pretty) in Hk.
    assert (r ∈ filter (λ r, tweet_id r = n) frame) as Hin
      by (by apply list_elem_of_filter).
    rewrite Hf in Hin. by apply elem_of_nil in Hin.
  - destruct (build_wls frame !! str n) as [l|] eqn:Hl.
    + simpl in Hval. by rewrite Hval.
    + simpl in Hval. discriminate.
Qed.

(** X7: a call of the generator leaves the candidate's key bound to what it
    yielded, also when the tweet was unknown and nothing was yielded, and
    changes no other key; a second call for the same candidate yields the
    same pairs and changes nothing any more. *)
Theorem generator_binds_key (wls : gmap string (list (string * string))) (t : Tweet) :
  (worker_label_generator wls t).2 !! name t = Some (worker_label_generator wls t).1 ∧
  (wls !! name t = None → (worker_label_generator wls t).1 = []) ∧
  (∀ k, k ≠ name t → (worker_label_generator wls t).2 !! k = wls !! k) ∧
  worker_label_generator (worker_label_generator wls t).2 t =
  worker_label_generator wls t.
Proof.
  unfold worker_label_generator, defaultdict_getitem.
  destruct (wls !! name t) as [l|] eqn:Hl; simpl.
  - split_and!; [done|discriminate|done|]. by rewrite Hl.
  - split_and!.
    + by rewrite lookup_insert_eq.
    + done.
    + intros k Hk. by rewrite lookup_insert_ne.
    + by rewrite lookup_insert_eq.
Qed.

(** ** Errors of the gold labels *)

(** X8: when a candidate of split 0 or 1 has no entry in the gold
    dictionary, and the sentiment of every candidate that has one is a
    class, the computation of the gold labels raises [KeyError]. *)
Theorem gold_labels_key_error (vals : list string) (vl : gmap string string)
    (tweets : list Tweet) (c : Tweet) :
  c ∈ tweets →
  split c = 0 ∨ split c = 1 →
  vl !! name c = None →
  (∀ c' s, c' ∈ tweets → vl !! name c' = Some s → s ∈ vals) →
  gold_labels vals vl tweets = Raise KeyError.
Proof.
  intros Hc Hs Hnone Hvals.
  destruct (gold_labels_raise_intro vals vl tweets c KeyError Hc Hs) as [e He].
  { unfold gold_label, dict_getitem. by rewrite Hnone. }
  rewrite He. f_equal.
  apply gold_labels_raise_inv in He as (c' & Hc' & Hr).
  unfold gold_label, dict_getitem in Hr.
  destruct (vl !! name c') as [s|] eqn:Hs'; simpl in Hr; [|congruence].
  apply label_code_raise in Hr as [Hnot _]. exfalso. apply Hnot. eauto.
Qed.

(** ** The majority vote as a whole *)

Lemma elem_of_row_votes (row : list Z) (x : Z) :
  x ∈ row_votes row ↔ x ∈ row ∧ x ≠ 0.
Proof. unfold row_votes. rewrite list_elem_of_filter. tauto. Qed.

(** X9: the majority vote returns exactly on the matrices whose every row
    holds a vote, and then it returns one label per row, each of them a
    non-zero entry of its row. *)
Theorem mv_returns_iff (L : matrix) :
  ((∃ ls, mv L = Ok ls) ↔ Forall (λ row, row_votes row ≠ []) (rows L)) ∧
  (∀ ls, mv L = Ok ls → Forall2 (λ row l, l ∈ row ∧ l ≠ 0) (rows L) ls).
Proof.
  assert (Hinv : ∀ ls, mv L = Ok ls →
            length (rows L) = length ls ∧
            ∀ i row l, rows L !! i = Some row → ls !! i = Some l → mv_at L i = Ok l).
  { intros ls Hmv. unfold mv in Hmv. apply for_each_inv in Hmv. split.
    - apply Forall2_length in Hmv. by rewrite length_seq in Hmv.
    - intros i row l Hrow Hl.
      assert (seq 0 (shape L).1 !! i = Some i) as Hi.
      { apply lookup_seq. split; [done|]. simpl. by apply lookup_lt_Some in Hrow. }
      destruct (Forall2_lookup_l _ _ _ _ _ Hmv Hi) as (l' & Hl' & Hat). congruence. }
  split.
  - split; [|apply mv_returns].
    intros [ls Hmv]. destruct (Hinv ls Hmv) as [Hlen Hat].
    apply Forall_forall. intros row Hrow Hnil.
    apply list_elem_of_lookup in Hrow as [i Hi].
    destruct (lookup_lt_is_Some_2 ls i) as [l Hl].
    { rewrite <- Hlen. by apply lookup_lt_Some in Hi. }
    specialize (Hat i row l Hi Hl).
    rewrite (mv_at_row L i row Hi), Hnil in Hat. discriminate.
  - intros ls Hmv. destruct (Hinv ls Hmv) as [Hlen Hat].
    apply Forall2_same_length_lookup. split; [done|].
    intros i row l Hrow Hl. specialize (Hat i row l Hrow Hl).
    destruct (decide (row_votes row = [])) as [Hnil|Hne].
    + rewrite (mv_at_row L i row Hrow), Hnil in Hat. discriminate.
    + destruct (mv_at_returns L i row Hrow Hne) as (l' & Hl' & [[Hin _] _]).
      apply elem_of_row_votes. congruence.
Qed.

(** X10: when one label code has strictly more votes in a row than every
    other code, the majority vote of the row is that code, wherever its
    votes stand in the row. *)
Theorem mv_unique_mode (L : matrix) (i : nat) (row : list Z) (l : Z) :
  rows L !! i = Some row →
  l ∈ row_votes row →
  (∀ x, x ≠ l → (count_of x (row_votes row) < count_of l (row_votes row))%nat) →
  mv_at L i = Ok l.
Proof.
  intros Hrow Hl Hmode.
  destruct (mv_at_returns L i row Hrow) as (l' & Hat & [[_ Hmax] _]).
  { intros Hnil. rewrite Hnil in Hl. by apply elem_of_nil in Hl. }
  destruct (decide (l' = l)) as [->|Hne]; [done|].
  specialize (Hmode l' Hne). specialize (Hmax l). lia.
Qed.

(** ** Accuracies *)

Lemma np_div_unit (n d : Z) :
  0 ≤ n ≤ d → 0 < d → in_unit_interval (np_div n d).
Proof.
  intros Hn Hd. unfold np_div. rewrite decide_False by lia.
  eexists. split; [done|]. unfold Qle. simpl. rewrite Z2Pos.id by lia. lia.
Qed.

Lemma count_true_le (hits : list bool) :
  (length (filter (λ b, b = true) hits) ≤ length hits)%nat.
Proof. apply length_filter. Qed.

Lemma mv_n_correct_bounds (ls labels : list Z) (n_rows : nat) (n : Z) :
  mv_n_correct ls labels n_rows = Ok n → 0 ≤ n ≤ Z.of_nat n_rows.
Proof.
  unfold mv_n_correct. destruct (for_each _ _) as [hits|] eqn:Hf; simpl; [|discriminate].
  intros [= <-]. apply for_each_inv, Forall2_length in Hf.
  rewrite length_seq in Hf. pose proof (count_true_le hits). lia.
Qed.

Lemma mv_n_correct_returns (ls labels : list Z) (n_rows : nat) :
  (n_rows ≤ length ls)%nat → (n_rows ≤ length labels)%nat →
  ∃ n, mv_n_correct ls labels n_rows = Ok n.
Proof.
  intros H1 H2. unfold mv_n_correct.
  destruct (for_each_total
    (λ i, let* m := getitem ls i in let* g := getitem labels i in
          Ok (bool_decide (m = g))) (seq 0 n_rows)) as [hits ->]; [|simpl; eauto].
  intros i Hi. apply elem_of_seq in Hi. unfold getitem.
  destruct (lookup_lt_is_Some_2 ls i) as [m ->]; [lia|].
  destruct (lookup_lt_is_Some_2 labels i) as [g ->]; [lia|]. simpl. eauto.
Qed.

(** X11: when the majority-vote report is computed, the number of incorrect
    rows lies between zero and the number of rows; on a matrix with rows the
    accuracy is the quotient of the correct rows by the rows, between zero
    and one, and on a matrix without rows it is not a number.  The report is
    computed whenever every row holds a vote and there is a gold label for
    every row. *)
Theorem majority_vote_report_bounds (L : matrix) (labels : list Z) :
  (∀ a wrong, majority_vote_report L labels = Ok (a, wrong) →
     0 ≤ wrong ≤ Z.of_nat (length (rows L)) ∧
     a = np_div (Z.of_nat (length (rows L)) - wrong) (Z.of_nat (length (rows L))) ∧
     (rows L = [] → a = NaN) ∧
     (rows L ≠ [] → in_unit_interval a)) ∧
  (Forall (λ row, row_votes row ≠ []) (rows L) →
   (length (rows L) ≤ length labels)%nat →
   ∃ a wrong, majority_vote_report L labels = Ok (a, wrong)).
Proof.
  split.
  - intros a wrong. unfold majority_vote_report.
    destruct (mv L) as [ls|]; simpl; [|discriminate].
    destruct (mv_n_correct ls labels (length (rows L))) as [n|] eqn:Hn; simpl;
      [|discriminate].
    intros [= <- <-]. apply mv_n_correct_bounds in Hn.
    replace (Z.of_nat (length (rows L)) - (Z.of_nat (length (rows L)) - n)) with n by lia.
    split_and!; [lia..|done| |].
    + intros Hnil. rewrite Hnil in *. simpl in *.
      replace n with 0 by lia. reflexivity.
    + intros Hne. apply np_div_unit; [lia|].
      destruct (rows L); [done|simpl; lia].
  - intros Hall Hlen. unfold majority_vote_report.
    destruct (mv_returns L Hall) as [ls Hls]. rewrite Hls. simpl.
    destruct (mv_n_correct_returns ls labels (length (rows L))) as [n ->]; [|done|simpl; eauto].
    unfold mv in Hls. apply for_each_inv, Forall2_length in Hls.
    rewrite length_seq in Hls. simpl in Hls. lia.
Qed.

(** The rows that match a non-zero gold label are among the rows that store
    an entry. *)
Lemma hits_le_nnz (get : nat → Z) (labels : list Z) (ixs : list nat) (hits : list bool) :
  Forall (λ g, g ≠ 0) labels →
  Forall2 (λ i b, (let* g := getitem labels i in Ok (bool_decide (get i = g))) = Ok b)
          ixs hits →
  (length (filter (λ b, b = true) hits) ≤
   length (filter (λ x : Z, x ≠ 0%Z) (map get ixs)))%nat.
Proof.
  intros Hnz. induction 1 as [|i b ixs hits Hb _ IH]; [done|].
  simpl map. rewrite !filter_cons.
  unfold getitem in Hb. destruct (labels !! i) as [g|] eqn:Hg; simpl in Hb; [|discriminate].
  injection Hb as <-.
  assert (g ≠ 0) as Hg0.
  { rewrite Forall_forall in Hnz. apply Hnz. apply list_elem_of_lookup. eauto. }
  destruct (decide (get i = g)) as [->|Hne].
  - rewrite bool_decide_eq_true_2 by done.
    rewrite decide_True by done. rewrite decide_True by done. simpl. lia.
  - rewrite bool_decide_eq_false_2 by done.
    rewrite decide_False by discriminate. destruct (decide (get i ≠ 0)); simpl; lia.
Qed.

Lemma acc_bounded (L : matrix) (labels : list Z) (j : nat) (a : np_float) :
  Forall (λ g, g ≠ 0) labels →
  (1 ≤ col_nnz L j)%nat →
  acc L labels j = Ok a →
  in_unit_interval a.
Proof.
  intros Hnz Hnnz. unfold acc, n_correct.
  destruct (for_each _ _) as [hits|] eqn:Hf; simpl; [|discriminate].
  intros [= <-]. apply for_each_inv in Hf.
  pose proof (hits_le_nnz (λ i, matrix_get L i j) labels _ hits Hnz Hf) as Hle.
  apply np_div_unit; [|lia]. unfold col_nnz, column. lia.
Qed.

(** X12: with gold labels that are never zero, the accuracy of a worker
    whose column stores at least one vote is a quotient between zero and
    one: a row counts as correct only where the worker voted. *)
Theorem acc_in_unit_interval (L : matrix) (labels : list Z) (j : nat) (a : np_float) :
  Forall (λ g, g ≠ 0) labels →
  (1 ≤ col_nnz L j)%nat →
  acc L labels j = Ok a →
  in_unit_interval a.
Proof. apply acc_bounded. Qed.

(** X13: for a worker whose column stores no vote, with gold labels that
    are never zero and one for every row, the accuracy is the quotient of
    zero by zero: not a number, and no exception. *)
Theorem acc_of_empty_column (L : matrix) (labels : list Z) (j : nat) :
  Forall (λ g, g ≠ 0) labels →
  ((shape L).1 ≤ length labels)%nat →
  col_nnz L j = 0%nat →
  acc L labels j = Ok NaN.
Proof.
  intros Hnz Hlen Hnnz. unfold acc, n_correct.
  destruct (for_each_total
    (λ i, let* g := getitem labels i in Ok (bool_decide (matrix_get L i j = g)))
    (seq 0 (shape L).1)) as [hits Hf].
  { intros i Hi. apply elem_of_seq in Hi. unfold getitem.
    destruct (lookup_lt_is_Some_2 labels i) as [g ->]; [lia|]. simpl. eauto. }
  rewrite Hf. simpl. apply for_each_inv in Hf.
  pose proof (hits_le_nnz (λ i, matrix_get L i j) labels _ hits Hnz Hf) as Hle.
  pose proof Hnnz as Hnnz'. unfold col_nnz, column in Hnnz'. rewrite Hnnz' in Hle.
  replace (length (filter (λ b, b = true) hits)) with 0%nat by lia.
  by rewrite Hnnz.
Qed.

Lemma acc_raise (L : matrix) (labels : list Z) (j : nat) (e : exn) :
  acc L labels j = Raise e → e = IndexError ∧ (length labels < (shape L).1)%nat.
Proof.
  unfold acc, n_correct.
  destruct (for_each _ _) as [hits|e'] eqn:Hf; simpl; [discriminate|].
  intros [= <-]. apply for_each_raise_inv in Hf as (i & Hi & Hr).
  apply elem_of_seq in Hi. unfold getitem in Hr.
  destruct (labels !! i) eqn:Hl; simpl in Hr; [discriminate|].
  injection Hr as <-. apply lookup_ge_None in Hl.
  unfold shape in *. simpl in *. split; [done|lia].
Qed.

(** X14: the accuracy loop raises, and then [IndexError], exactly when the
    matrix has a column and fewer gold labels than rows; gold labels beyond
    the last row are never read. *)
Theorem accs_index_error (L : matrix) (labels : list Z) :
  ((∃ e, accs L labels = Raise e) ↔
   (0 < (shape L).2)%nat ∧ (length labels < (shape L).1)%nat) ∧
  (∀ e, accs L labels = Raise e → e = IndexError) ∧
  (∀ more, (shape L).1 ≤ length labels →
           accs L (labels ++ more) = accs L labels)%nat.
Proof.
  split_and!.
  - split.
    + intros [e He]. unfold accs in He. apply for_each_raise_inv in He as (j & Hj & Hr).
      apply elem_of_seq in Hj. apply acc_raise in Hr as [_ Hlt]. split; [lia|done].
    + intros [Hcol Hlt]. unfold accs. apply for_each_raise_iff.
      exists 0%nat. destruct (acc L labels 0) as [a|e] eqn:Ha.
      * exfalso. unfold acc, n_correct in Ha.
        destruct (for_each _ _) as [hits|] eqn:Hf in Ha; simpl in Ha; [|discriminate].
        apply for_each_inv in Hf.
        assert (seq 0 (shape L).1 !! length labels = Some (length labels)) as Hi
          by (apply lookup_seq; split; [done|lia]).
        destruct (Forall2_lookup_l _ _ _ _ _ Hf Hi) as (b & _ & Hb).
        unfold getitem in Hb. rewrite (lookup_ge_None_2 labels (length labels)) in Hb by lia.
        discriminate.
      * exists e. split; [|done]. apply elem_of_seq. lia.
  - intros e He. unfold accs in He. apply for_each_raise_inv in He as (j & _ & Hr).
    by apply acc_raise in Hr as [-> _].
  - intros more Hlen. unfold accs.
    assert (Hacc : ∀ j, acc L (labels ++ more) j = acc L labels j).
    { intros j. unfold acc, n_correct.
      assert (for_each (λ i, let* g := getitem (labels ++ more) i in
                             Ok (bool_decide (matrix_get L i j = g))) (seq 0 (shape L).1)
              = for_each (λ i, let* g := getitem labels i in
                             Ok (bool_decide (matrix_get L i j = g))) (seq 0 (shape L).1))
        as ->; [|done].
      assert (Hin : ∀ i, i ∈ seq 0 (shape L).1 → (i < length labels)%nat)
        by (intros i Hi; apply elem_of_seq in Hi; lia).
      revert Hin. generalize (seq 0 (shape L).1). intros ixs Hin.
      induction ixs as [|i ixs IH]; [done|]. simpl.
      unfold getitem at 1 3. rewrite lookup_app_l by (apply Hin; left).
      rewrite IH; [done|]. intros i' Hi'. apply Hin. by right. }
    generalize (seq 0 (shape L).2). intros js.
    induction js as [|j js IH]; [done|]. simpl. by rewrite Hacc, IH.
Qed.

(** ** The candidates *)

Lemma indexed_join_aux (P : raw_answer → Prop) `{∀ r, Decision (P r)}
    (f : nat → nat) (raw : list raw_answer) (gs : list gold_answer) :
  map snd (filter (λ ir, P ir.2) (imap (λ i r, (f i, r)) raw) ≫= λ ir,
             map (λ _ : gold_answer, ir) gs) =
  map fst (filter P raw ≫= λ r, map (λ g, (r, g)) gs).
Proof.
  revert f. induction raw as [|r raw IH]; intros f; [done|].
  rewrite imap_cons, !filter_cons. simpl.
  destruct (decide (P r)).
  - rewrite !bind_cons, !map_app. f_equal; [|exact (IH (f ∘ S))].
    clear. induction gs as [|g gs IHg]; [done|]. simpl. by rewrite IHg.
  - exact (IH (f ∘ S)).
Qed.

(** Forgetting the index labels gives the joined frame. *)
Lemma indexed_join_frame (raw : list raw_answer) (gold : list gold_crowd_answer) :
  map snd (candidate_labeled_tweets_indexed raw gold) = candidate_labeled_tweets raw gold.
Proof.
  unfold candidate_labeled_tweets_indexed, candidate_labeled_tweets, inner_join.
  rewrite !map_bind. apply list_bind_ext; [|done]. intros n.
  exact (indexed_join_aux (λ r, tweet_id r = n) id raw _).
Qed.

Lemma elem_of_indexed_join (raw : list raw_answer) (gold : list gold_crowd_answer)
    (i : nat) (r : raw_answer) :
  (i, r) ∈ candidate_labeled_tweets_indexed raw gold ↔
  raw !! i = Some r ∧ r ∈ candidate_labeled_tweets raw gold.
Proof.
  unfold candidate_labeled_tweets_indexed. rewrite list_elem_of_bind.
  rewrite elem_of_candidate_labeled_tweets. split.
  - intros (key & Hin & _). apply list_elem_of_bind in Hin as ([i' r'] & Hin & Hir).
    apply list_elem_of_filter in Hir as [Hkey Hir]. simpl in Hkey.
    apply elem_of_lookup_imap in Hir as (k & y & [= -> ->] & Hk).
    change (map ?f ?l) with (f <$> l) in Hin.
    apply list_elem_of_fmap in Hin as (g & [= -> ->] & Hg).
    apply list_elem_of_filter in Hg as [Hid Hg].
    split_and!; [done|by eapply list_elem_of_lookup_2|].
    exists g. split; [done|congruence].
  - intros (Hi & Hr & g & Hg & Hid). exists (tweet_id r). split.
    + apply list_elem_of_bind. exists (i, r). split.
      * change (map ?f ?l) with (f <$> l). apply list_elem_of_fmap. exists g.
        split; [done|]. by apply list_elem_of_filter.
      * apply list_elem_of_filter. split; [done|]. apply elem_of_lookup_imap. eauto.
    + apply elem_of_unique. exact (list_elem_of_fmap_2 tweet_id raw r Hr).
Qed.

Lemma drop_duplicates_snoc (l : list body_row) (row : body_row) :
  drop_duplicates (l ++ [row]) =
  if decide (row.2 ∈ (drop_duplicates l).*2) then drop_duplicates l
  else drop_duplicates l ++ [row].
Proof. unfold drop_duplicates. by rewrite fold_left_app. Qed.

(** What [drop_duplicates] keeps: rows of its argument, with every pair of
    columns of the argument once. *)
Lemma drop_duplicates_spec (l : list body_row) :
  (∀ row, row ∈ drop_duplicates l → row ∈ l) ∧
  (∀ k, k ∈ (drop_duplicates l).*2 ↔ k ∈ l.*2) ∧
  NoDup (drop_duplicates l).*2.
Proof.
  induction l as [|row l (IH1 & IH2 & IH3)] using rev_ind.
  - split_and!; [done|done|constructor].
  - rewrite drop_duplicates_snoc.
    destruct (decide (row.2 ∈ (drop_duplicates l).*2)) as [Hin|Hin].
    + split_and!; [| |done].
      * intros row' Hrow'. apply elem_of_app. left. by apply IH1.
      * intros k. rewrite IH2, fmap_app, elem_of_app. simpl.
        rewrite list_elem_of_singleton. split; [tauto|].
        intros [?| ->]; [done|]. by apply IH2.
    + split_and!.
      * intros row' Hrow'. apply elem_of_app in Hrow' as [?|?]; apply elem_of_app;
          [left; by apply IH1|by right].
      * intros k. rewrite !fmap_app, !elem_of_app, IH2. done.
      * rewrite fmap_app. apply NoDup_app. split_and!; [done| |apply NoDup_singleton].
        intros k Hk Hk'. simpl in Hk'. apply list_elem_of_singleton in Hk' as ->. done.
Qed.

Lemma drop_duplicates_sorted (l : list body_row) :
  StronglySorted by_tweet_id l → StronglySorted by_tweet_id (drop_duplicates l).
Proof.
  induction l as [|row l IH] using rev_ind; [done|].
  intros Hs. apply StronglySorted_app in Hs as (Hrel & Hl & _).
  rewrite drop_duplicates_snoc. destruct (decide _); [by apply IH|].
  apply StronglySorted_app. split_and!; [|by apply IH|repeat constructor].
  intros x1 x2 Hx1 Hx2. apply Hrel; [|done].
  by apply (drop_duplicates_spec l).
Qed.

(** Rows of a list with distinct images are determined by their image. *)
Lemma NoDup_fmap_inj_on {A B} (f : A → B) (l : list A) (x y : A) :
  NoDup (f <$> l) → x ∈ l → y ∈ l → f x = f y → x = y.
Proof.
  intros Hnd Hx Hy Hxy.
  apply list_elem_of_lookup in Hx as [ix Hix]. apply list_elem_of_lookup in Hy as [iy Hiy].
  assert (ix = iy) as ->; [|congruence].
  apply (NoDup_lookup _ _ _ (f x) Hnd); rewrite list_lookup_fmap.
  - by rewrite Hix.
  - rewrite Hiy. simpl. by rewrite Hxy.
Qed.

Section candidates.
Variable sort_values : list body_row → list body_row.
Hypothesis sort_values_perm : ∀ l, sort_values l ≡ₚ l.
Hypothesis sort_values_sorted : ∀ l, StronglySorted by_tweet_id (sort_values l).

Lemma elem_of_tweet_bodies (frame : list (nat * raw_answer)) (row : body_row) :
  row ∈ tweet_bodies sort_values frame →
  ∃ r, (row.1, r) ∈ frame ∧ row.2 = (tweet_id r, tweet_body r).
Proof.
  intros Hrow. apply (drop_duplicates_spec _) in Hrow.
  rewrite sort_values_perm in Hrow. unfold body_columns in Hrow.
  change (map ?f ?l) with (f <$> l) in Hrow.
  apply list_elem_of_fmap in Hrow as ([i r] & -> & Hin). simpl. eauto.
Qed.

Lemma tweet_bodies_keys (frame : list (nat * raw_answer)) (k : Z * string) :
  k ∈ (tweet_bodies sort_values frame).*2 ↔
  ∃ ir, ir ∈ frame ∧ k = (tweet_id ir.2, tweet_body ir.2).
Proof.
  unfold tweet_bodies. destruct (drop_duplicates_spec (sort_values (body_columns frame)))
    as (_ & -> & _).
  rewrite sort_values_perm. unfold body_columns.
  change (map ?f ?l) with (f <$> l). rewrite <- list_fmap_compose, list_elem_of_fmap.
  split; intros (ir & H1 & H2); eauto.
Qed.

Lemma elem_of_tweet_list (frame : list (nat * raw_answer)) (c : Tweet) :
  c ∈ tweet_list sort_values frame ↔
  ∃ row, row ∈ tweet_bodies sort_values frame ∧
         name c = str row.2.1 ∧
         split c = if decide (10 * Z.of_nat row.1 ≤
                              Z.of_nat (length (tweet_bodies sort_values frame)))
                   then 1 else 0.
Proof.
  unfold tweet_list. change (map ?f ?l) with (f <$> l). rewrite list_elem_of_fmap.
  split.
  - intros (row & -> & Hrow). eauto.
  - intros (row & Hrow & Hn & Hs). exists row. split; [|done].
    destruct c. simpl in *. by subst.
Qed.

(** X15: the candidates cell 16 stores are in split 0 or 1 and each is
    named after a tweet of the joined frame, and every tweet of the joined
    frame has a candidate named after it. *)
Theorem candidates_of_joined_frame (raw : list raw_answer)
    (gold : list gold_crowd_answer) :
  (∀ c, c ∈ tweet_list sort_values (candidate_labeled_tweets_indexed raw gold) →
        (split c = 0 ∨ split c = 1) ∧
        ∃ r, r ∈ candidate_labeled_tweets raw gold ∧ name c = str (tweet_id r)) ∧
  (∀ r, r ∈ candidate_labeled_tweets raw gold →
        ∃ c, c ∈ tweet_list sort_values (candidate_labeled_tweets_indexed raw gold) ∧
             name c = str (tweet_id r)).
Proof.
  split.
  - intros c Hc. apply elem_of_tweet_list in Hc as (row & Hrow & Hn & Hs). split.
    + rewrite Hs. destruct (decide _); auto.
    + apply elem_of_tweet_bodies in Hrow as (r & Hin & Hk).
      apply elem_of_indexed_join in Hin as [_ Hin].
      exists r. split; [done|]. by rewrite Hn, Hk.
  - intros r Hr. rewrite <- indexed_join_frame in Hr.
    change (map ?f ?l) with (f <$> l) in Hr.
    apply list_elem_of_fmap in Hr as ([i r'] & -> & Hin). simpl.
    assert ((tweet_id r', tweet_body r') ∈
            (tweet_bodies sort_values (candidate_labeled_tweets_indexed raw gold)).*2) as Hk.
    { apply tweet_bodies_keys. by exists (i, r'). }
    apply list_elem_of_fmap in Hk as (row & Hk & Hrow).
    eexists (mkTweet (str row.2.1) _). split.
    + apply elem_of_tweet_list. exists row. split_and!; [done|done|reflexivity].
    + simpl. by rewrite <- Hk.
Qed.

Lemma tweet_bodies_index_NoDup (raw : list raw_answer) (gold : list gold_crowd_answer) :
  NoDup (tweet_bodies sort_values (candidate_labeled_tweets_indexed raw gold)).*1.
Proof.
  apply NoDup_fmap_2_strong.
  - intros [i1 k1] [i2 k2] H1 H2. simpl. intros <-.
    apply elem_of_tweet_bodies in H1 as (r1 & H1 & Hk1).
    apply elem_of_tweet_bodies in H2 as (r2 & H2 & Hk2). simpl in *.
    apply elem_of_indexed_join in H1 as [H1 _].
    apply elem_of_indexed_join in H2 as [H2 _]. congruence.
  - eapply NoDup_fmap_1. apply (drop_duplicates_spec _).
Qed.

Lemma query_split_test (frame : list (nat * raw_answer)) :
  length (query_split (tweet_list sort_values frame) 1) =
  length (filter (λ row : body_row,
                    10 * Z.of_nat row.1 ≤
                    Z.of_nat (length (tweet_bodies sort_values frame)))
                 (tweet_bodies sort_values frame)).
Proof.
  unfold query_split, tweet_list.
  generalize (length (tweet_bodies sort_values frame)).
  intros total. induction (tweet_bodies sort_values frame) as [|row tb IH]; [done|].
  simpl map. rewrite !filter_cons. simpl.
  destruct (decide (10 * Z.of_nat row.1 ≤ Z.of_nat total)).
  - rewrite decide_True by done. simpl. by rewrite IH.
  - rewrite decide_False by done. exact IH.
Qed.

(** X16: the test split (split 1) holds at most a tenth of the candidates
    plus one, and only candidates named after a tweet that has an answer
    among the raw answers numbered up to a tenth of the number of
    candidates. *)
Theorem test_split_bound (raw : list raw_answer) (gold : list gold_crowd_answer) :
  10 * Z.of_nat (length (query_split
          (tweet_list sort_values (candidate_labeled_tweets_indexed raw gold)) 1))
  ≤ Z.of_nat (length (tweet_list sort_values
                        (candidate_labeled_tweets_indexed raw gold))) + 10 ∧
  (∀ c, c ∈ query_split
              (tweet_list sort_values (candidate_labeled_tweets_indexed raw gold)) 1 →
        ∃ i r, raw !! i = Some r ∧
               10 * Z.of_nat i ≤
                 Z.of_nat (length (tweet_list sort_values
                                     (candidate_labeled_tweets_indexed raw gold))) ∧
               name c = str (tweet_id r)).
Proof.
  set (frame := candidate_labeled_tweets_indexed raw gold).
  assert (Hlen : length (tweet_list sort_values frame) =
                 length (tweet_bodies sort_values frame))
    by (unfold tweet_list; by rewrite length_map).
  split.
  - rewrite query_split_test, Hlen.
    set (tb := tweet_bodies sort_values frame).
    set (kept := filter _ tb).
    assert (Hkept : ∀ row, row ∈ kept →
              10 * Z.of_nat row.1 ≤ Z.of_nat (length tb) ∧ row ∈ tb).
    { intros row Hrow. unfold kept in Hrow. by apply list_elem_of_filter in Hrow. }
    assert (NoDup kept.*1) as Hnd.
    { apply NoDup_fmap_2_strong.
      - intros x y Hx Hy Hxy.
        apply Hkept in Hx as [_ Hx]. apply Hkept in Hy as [_ Hy].
        exact (NoDup_fmap_inj_on fst tb x y (tweet_bodies_index_NoDup raw gold) Hx Hy Hxy).
      - unfold kept. apply NoDup_filter. eapply NoDup_fmap_1. apply (drop_duplicates_spec _). }
    assert (kept.*1 ⊆+ seq 0 (S (length tb / 10))) as Hsub.
    { apply NoDup_submseteq; [done|]. intros i Hi.
      apply list_elem_of_fmap in Hi as (row & -> & Hrow).
      apply Hkept in Hrow as [HP _].
      apply elem_of_seq. split; [lia|].
      assert (Z.of_nat row.1 ≤ Z.of_nat (length tb / 10)); [|lia].
      rewrite Nat2Z.inj_div. apply Z.div_le_lower_bound; lia. }
    apply submseteq_length in Hsub. rewrite length_fmap, length_seq in Hsub.
    assert (Z.of_nat (length tb / 10) * 10 ≤ Z.of_nat (length tb)).
    { rewrite Nat2Z.inj_div. pose proof (Z.mul_div_le (Z.of_nat (length tb)) 10). lia. }
    unfold body_row in *. lia.
  - intros c Hc. apply elem_of_query_split in Hc as [Hc Hs].
    apply elem_of_tweet_list in Hc as (row & Hrow & Hn & Hs').
    rewrite Hs in Hs'. destruct (decide _) as [Hle|]; [|discriminate].
    apply elem_of_tweet_bodies in Hrow as (r & Hin & Hk).
    apply elem_of_indexed_join in Hin as [Hi _].
    exists row.1, r. rewrite Hlen. split_and!; [done|done|by rewrite Hn, Hk].
Qed.

Lemma sorted_distinct_strict (ids : list Z) :
  StronglySorted Z.le ids → NoDup ids → StronglySorted Z.lt ids.
Proof.
  induction 1 as [|x ids Hs IH Hall]; intros Hnd; [constructor|].
  apply NoDup_cons in Hnd as [Hx Hnd]. constructor; [by apply IH|].
  rewrite Forall_forall in Hall |- *. intros y Hy.
  specialize (Hall y Hy). assert (x ≠ y) by (intros ->; done). lia.
Qed.

(** X17: when no tweet id of the frame comes with two tweet bodies, the
    candidates are named after the distinct tweet ids of the frame, one
    candidate per tweet, in increasing order of the ids. *)
Theorem one_candidate_per_tweet (frame : list (nat * raw_answer)) :
  (∀ ir1 ir2, ir1 ∈ frame → ir2 ∈ frame →
              tweet_id ir1.2 = tweet_id ir2.2 → tweet_body ir1.2 = tweet_body ir2.2) →
  ∃ ids, map name (tweet_list sort_values frame) = map str ids ∧
         StronglySorted Z.lt ids ∧
         ∀ n, n ∈ ids ↔ ∃ ir, ir ∈ frame ∧ tweet_id ir.2 = n.
Proof.
  intros Hbody. exists (map (λ row : body_row, row.2.1) (tweet_bodies sort_values frame)).
  split_and!.
  - unfold tweet_list. rewrite !map_map. done.
  - apply sorted_distinct_strict.
    + assert (StronglySorted by_tweet_id (tweet_bodies sort_values frame)) as Hs
        by (apply drop_duplicates_sorted, sort_values_sorted).
      induction Hs as [|row tb Hs IH Hall]; [constructor|].
      simpl. constructor; [done|].
      rewrite Forall_forall in Hall. apply Forall_forall. intros n Hn.
      change (map ?f ?l) with (f <$> l) in Hn.
      apply list_elem_of_fmap in Hn as (row' & -> & Hrow'). by apply Hall.
    + apply NoDup_fmap_2_strong.
      * intros x y Hx Hy Hxy.
        assert (NoDup (tweet_bodies sort_values frame).*2) as Hnd
          by apply (drop_duplicates_spec _).
        destruct (elem_of_tweet_bodies frame x Hx) as (rx & Hrx & Hkx).
        destruct (elem_of_tweet_bodies frame y Hy) as (ry & Hry & Hky).
        assert (x.2 = y.2) as Hk.
        { rewrite Hkx, Hky. rewrite Hkx, Hky in Hxy. simpl in Hxy.
          f_equal; [done|]. by apply (Hbody (x.1, rx) (y.1, ry)). }
        exact (NoDup_fmap_inj_on snd _ x y Hnd Hx Hy Hk).
      * eapply NoDup_fmap_1. apply (drop_duplicates_spec _).
  - intros n. change (map ?f ?l) with (f <$> l). rewrite list_elem_of_fmap. split.
    + intros (row & -> & Hrow). apply elem_of_tweet_bodies in Hrow as (r & Hin & Hk).
      exists (row.1, r). split; [done|]. by rewrite Hk.
    + intros (ir & Hin & <-).
      assert ((tweet_id ir.2, tweet_body ir.2) ∈ (tweet_bodies sort_values frame).*2) as Hk
        by (apply tweet_bodies_keys; eauto).
      apply list_elem_of_fmap in Hk as (row & Hk & Hrow).
      exists row. split; [by rewrite <- Hk|done].
Qed.

(** X18: on the candidates cell 16 stores, the computation of the gold
    labels never raises [KeyError]: the only exception is the [ValueError]
    of [values.index], and the computation returns exactly when the gold
    sentiment of every tweet of the joined frame is an emotion of the joined
    frame. *)
Theorem gold_labels_of_candidates (raw : list raw_answer)
    (gold : list gold_crowd_answer) :
  (∀ e, gold_labels (values (candidate_labeled_tweets raw gold))
                    (verbose_labels (gold_answers gold))
                    (tweet_list sort_values (candidate_labeled_tweets_indexed raw gold))
        = Raise e → e = ValueError) ∧
  ((∃ g0 g1, gold_labels (values (candidate_labeled_tweets raw gold))
                         (verbose_labels (gold_answers gold))
                         (tweet_list sort_values
                            (candidate_labeled_tweets_indexed raw gold))
             = Ok (g0, g1)) ↔
   ∀ r s, r ∈ candidate_labeled_tweets raw gold →
          verbose_labels (gold_answers gold) !! str (tweet_id r) = Some s →
          s ∈ map emotion (candidate_labeled_tweets raw gold)).
Proof.
  set (clt := candidate_labeled_tweets raw gold).
  set (vl := verbose_labels (gold_answers gold)).
  set (tweets := tweet_list sort_values (candidate_labeled_tweets_indexed raw gold)).
  assert (Hcand : ∀ c, c ∈ tweets →
            (split c = 0 ∨ split c = 1) ∧ ∃ r, r ∈ clt ∧ name c = str (tweet_id r)).
  { intros c Hc. apply elem_of_tweet_list in Hc as (row & Hrow & Hn & Hs). split.
    - rewrite Hs. destruct (decide _); auto.
    - apply elem_of_tweet_bodies in Hrow as (r & Hin & Hk).
      apply elem_of_indexed_join in Hin as [_ Hin].
      exists r. split; [done|]. by rewrite Hn, Hk. }
  assert (Hraise : ∀ c e, c ∈ tweets → gold_label (values clt) vl c = Raise e →
            e = ValueError ∧
            ∃ r s, r ∈ clt ∧ vl !! str (tweet_id r) = Some s ∧ s ∉ map emotion clt).
  { intros c e Hc Hr. destruct (Hcand c Hc) as (_ & r & Hr' & Hn).
    unfold gold_label, dict_getitem in Hr. rewrite Hn in Hr.
    destruct (joined_tweet_has_gold raw gold r Hr') as [s Hs].
    fold vl in Hs. rewrite Hs in Hr. simpl in Hr.
    apply label_code_raise in Hr as [Hnot ->]. split; [done|].
    exists r, s. split_and!; [done..|]. intros Hin. apply Hnot.
    unfold values. by apply elem_of_unique. }
  split.
  - intros e He. apply gold_labels_raise_inv in He as (c & Hc & Hr).
    by apply Hraise in Hr as [-> _].
  - split.
    + intros (g0 & g1 & Hok) r s Hr Hs.
      destruct (decide (s ∈ map emotion clt)) as [|Hnot]; [done|]. exfalso.
      unfold clt in Hr. rewrite <- indexed_join_frame in Hr.
      change (map ?f ?l) with (f <$> l) in Hr.
      apply list_elem_of_fmap in Hr as ([i r'] & -> & Hin). simpl in Hs.
      assert ((tweet_id r', tweet_body r') ∈
              (tweet_bodies sort_values (candidate_labeled_tweets_indexed raw gold)).*2) as Hk.
      { apply tweet_bodies_keys. by exists (i, r'). }
      apply list_elem_of_fmap in Hk as (row & Hk & Hrow).
      set (c := mkTweet (str row.2.1)
                  (if decide (10 * Z.of_nat row.1 ≤
                       Z.of_nat (length (tweet_bodies sort_values
                                           (candidate_labeled_tweets_indexed raw gold))))
                   then 1 else 0)).
      assert (c ∈ tweets) as Hc.
      { apply elem_of_tweet_list. exists row. split_and!; [done|done|reflexivity]. }
      destruct (gold_labels_raise_intro (values clt) vl tweets c ValueError Hc) as [e He].
      * by apply Hcand.
      * unfold gold_label, dict_getitem. simpl. rewrite <- Hk. simpl. rewrite Hs. simpl.
        apply label_code_raise. split; [|done]. unfold values. by rewrite elem_of_unique.
      * congruence.
    + intros Hall. destruct (gold_labels (values clt) vl tweets) as [[g0 g1]|e] eqn:Hg;
        [eauto|]. exfalso.
      apply gold_labels_raise_inv in Hg as (c & Hc & Hr).
      apply Hraise in Hr as (_ & r & s & Hr & Hs & Hnot); [|done].
      apply Hnot. by apply (Hall r s).
Qed.

(** X19: for every candidate cell 16 stores, the generator yields the votes
    recorded for the candidate's tweet in the joined frame, and at least
    one: no candidate is without vote. *)
Theorem candidates_have_votes (raw : list raw_answer)
    (gold : list gold_crowd_answer) (c : Tweet) :
  c ∈ tweet_list sort_values (candidate_labeled_tweets_indexed raw gold) →
  (worker_label_generator
     (build_wls (worker_labels (candidate_labeled_tweets raw gold))) c).1
    = recorded_votes (candidate_labeled_tweets raw gold) (name c) ∧
  (worker_label_generator
     (build_wls (worker_labels (candidate_labeled_tweets raw gold))) c).1 ≠ [].
Proof.
  intros Hc.
  assert ((worker_label_generator
             (build_wls (worker_labels (candidate_labeled_tweets raw gold))) c).1
          = recorded_votes (candidate_labeled_tweets raw gold) (name c)) as Heq.
  { unfold worker_label_generator, worker_labels.
    rewrite defaultdict_getitem_fst. apply build_wls_lookup. }
  split; [done|]. rewrite Heq.
  apply elem_of_tweet_list in Hc as (row & Hrow & Hn & _).
  apply elem_of_tweet_bodies in Hrow as (r & Hin & Hk).
  apply elem_of_indexed_join in Hin as [_ Hin].
  intros Hnil.
  assert ((str (worker_id r), emotion r) ∈
          recorded_votes (candidate_labeled_tweets raw gold) (name c)) as Hv.
  { unfold recorded_votes.
    apply (list_elem_of_fmap_2 (λ r, (str (worker_id r), emotion r))).
    apply list_elem_of_filter. split; [|done]. by rewrite Hn, Hk. }
  rewrite Hnil in Hv. by apply elem_of_nil in Hv.
Qed.

End candidates.

(** ** Votes of a tweet with several gold rows *)

Lemma recorded_votes_app (l1 l2 : list raw_answer) (k : string) :
  recorded_votes (l1 ++ l2) k = recorded_votes l1 k ++ recorded_votes l2 k.
Proof. unfold recorded_votes. by rewrite filter_app, map_app. Qed.

Lemma recorded_votes_replicate (c : nat) (r : raw_answer) (k : string) :
  recorded_votes (replicate c r) k =
  if decide (str (tweet_id r) = k) then replicate c (str (worker_id r), emotion r) else [].
Proof.
  unfold recorded_votes. induction c as [|c IH]; simpl.
  - by destruct (decide _).
  - rewrite filter_cons. destruct (decide (str (tweet_id r) = k)); [|done].
    simpl. by rewrite IH.
Qed.

(** X20: in the vote lists built from the joined frame, the list of a tweet
    holds every raw vote on the tweet once per validated gold row of the
    tweet: a tweet with two such rows has every worker's vote twice. *)
Theorem wls_repeats_votes (raw : list raw_answer) (gold : list gold_crowd_answer)
    (n : Z) :
  default [] (build_wls (worker_labels (candidate_labeled_tweets raw gold)) !! str n) =
  filter (λ r, tweet_id r = n) raw ≫= λ r,
    replicate (validated_gold_count gold n) (str (worker_id r), emotion r).
Proof.
  unfold worker_labels.
  destruct (build_wls_lookup (candidate_labeled_tweets raw gold) (str n)) as [-> _].
  unfold recorded_votes. rewrite filter_str_eq.
  unfold candidate_labeled_tweets. rewrite join_per_tweet, map_bind.
  apply list_bind_ext; [|done]. intros r. rewrite gold_answers_count.
  induction (validated_gold_count gold n) as [|c IH]; [done|]. simpl. by rewrite IH.
Qed.

(** With the two gold rows of tweet 1, the vote of worker 7 is listed
    twice. *)
Example wls_doubled_gold_rows :
  build_wls (worker_labels (candidate_labeled_tweets two_raw_answers doubled_gold_rows))
    !! "1" = Some [("7", "Positive"); ("7", "Positive")].
Proof. reflexivity. Qed.

(** ** The mean accuracy *)

Lemma np_add_NaN_l (l : list np_float) : fold_left np_add l NaN = NaN.
Proof. induction l as [|a l IH]; [done|]. simpl. exact IH. Qed.

Lemma np_sum_NaN (l : list np_float) (acc0 : np_float) :
  NaN ∈ l → fold_left np_add l acc0 = NaN.
Proof.
  revert acc0. induction l as [|a l IH]; intros acc0 Hin; [by apply elem_of_nil in Hin|].
  apply elem_of_cons in Hin as [<-|Hin]; simpl.
  - replace (np_add acc0 NaN) with NaN by (by destruct acc0). apply np_add_NaN_l.
  - by apply IH.
Qed.

Lemma np_sum_unit (l : list np_float) (q0 : Q) :
  Forall in_unit_interval l → (0 <= q0)%Q →
  ∃ q, fold_left np_add l (Finite q0) = Finite q ∧
       (0 <= q)%Q ∧ (q <= q0 + inject_Z (Z.of_nat (length l)))%Q.
Proof.
  intros Hall. revert q0. induction Hall as [|a l (qa & -> & Ha0 & Ha1) _ IH]; intros q0 Hq0.
  - exists q0. split_and!; [done..|]. simpl. unfold inject_Z. rewrite Qplus_0_r.
    apply Qle_refl.
  - simpl fold_left. destruct (IH (q0 + qa)%Q) as (q & -> & Hq & Hle).
    { rewrite <- (Qplus_0_r 0). by apply Qplus_le_compat. }
    exists q. split_and!; [done..|].
    eapply Qle_trans; [exact Hle|].
    replace (length (Finite qa :: l)) with (S (length l)) by done.
    rewrite Nat2Z.inj_succ. unfold Z.succ. rewrite inject_Z_plus.
    rewrite <- Qplus_assoc. apply Qplus_le_compat; [apply Qle_refl|].
    rewrite (Qplus_comm (inject_Z (Z.of_nat (length l)))).
    apply Qplus_le_compat; [done|apply Qle_refl].
Qed.

(** The mean of quotients between zero and one, at least one of them, is
    a quotient between zero and one. *)
Lemma np_mean_bounded (l : list np_float) :
  l ≠ [] → Forall in_unit_interval l → in_unit_interval (np_mean l).
Proof.
  intros Hne Hall. destruct l as [|a l]; [done|]. unfold np_mean.
  destruct (np_sum_unit (a :: l) 0 Hall) as (q & -> & Hq0 & Hq1); [apply Qle_refl|].
  rewrite Qplus_0_l in Hq1.
  assert (0 < inject_Z (Z.of_nat (length (a :: l))))%Q as Hpos.
  { replace 0%Q with (inject_Z 0) by done. rewrite <- Zlt_Qlt. simpl. lia. }
  eexists. split; [done|]. split.
  - apply Qle_shift_div_l; [done|]. by rewrite Qmult_0_l.
  - apply Qle_shift_div_r; [done|]. by rewrite Qmult_1_l.
Qed.

(** X21: on a matrix with at least one column, whose every column stores a
    vote, with gold labels that are never zero and one for every row, the
    mean accuracy is computed and is a quotient between zero and one. *)
Theorem mean_accuracy_unit (L : matrix) (labels : list Z) :
  Forall (λ g, g ≠ 0) labels →
  ((shape L).1 ≤ length labels)%nat →
  (0 < (shape L).2)%nat →
  (∀ j, (j < (shape L).2)%nat → (1 ≤ col_nnz L j)%nat) →
  ∃ a, mean_accuracy L labels = Ok a ∧ in_unit_interval a.
Proof.
  intros Hnz Hlen Hcols Hnnz. unfold mean_accuracy.
  destruct (accs_returns L labels Hlen) as [out Hout]. rewrite Hout. simpl.
  eexists. split; [done|].
  unfold accs in Hout. apply for_each_inv in Hout.
  apply np_mean_bounded.
  - intros ->. apply Forall2_length in Hout. rewrite length_seq in Hout. simpl in *. lia.
  - apply Forall_forall. intros a Ha.
    apply list_elem_of_lookup in Ha as [n Hn].
    destruct (Forall2_lookup_r _ _ _ _ _ Hout Hn) as (j & Hj & Hacc).
    apply lookup_seq in Hj as [-> Hlt]. simpl in Hacc.
    apply (acc_bounded L labels n); [done|by apply Hnnz|done].
Qed.

(** X22: one accuracy that is not a number makes the mean not a number:
    with gold labels that are never zero and one for every row, a single
    column without stored vote turns the printed mean accuracy into NaN. *)
Theorem mean_accuracy_of_empty_column (L : matrix) (labels : list Z) (j : nat) :
  Forall (λ g, g ≠ 0) labels →
  ((shape L).1 ≤ length labels)%nat →
  (j < (shape L).2)%nat →
  col_nnz L j = 0%nat →
  mean_accuracy L labels = Ok NaN.
Proof.
  intros Hnz Hlen Hj Hnnz. unfold mean_accuracy.
  destruct (accs_returns L labels Hlen) as [out Hout]. rewrite Hout. simpl. f_equal.
  assert (NaN ∈ out) as Hin.
  { unfold accs in Hout. apply for_each_inv in Hout.
    assert (seq 0 (shape L).2 !! j = Some j) as Hjj by (apply lookup_seq; split; [done|lia]).
    destruct (Forall2_lookup_l _ _ _ _ _ Hout Hjj) as (a & Ha & Hacc).
    assert (acc L labels j = Ok NaN) as Hnan.
    { unfold acc, n_correct.
      destruct (for_each_total
        (λ i, let* g := getitem labels i in Ok (bool_decide (matrix_get L i j = g)))
        (seq 0 (shape L).1)) as [hits Hf].
      { intros i Hi. apply elem_of_seq in Hi. unfold getitem.
        destruct (lookup_lt_is_Some_2 labels i) as [g ->]; [lia|]. simpl. eauto. }
      rewrite Hf. simpl. apply for_each_inv in Hf.
      pose proof (hits_le_nnz (λ i, matrix_get L i j) labels _ hits Hnz Hf) as Hle.
      pose proof Hnnz as Hnnz'. unfold col_nnz, column in Hnnz'. rewrite Hnnz' in Hle.
      replace (length (filter (λ b, b = true) hits)) with 0%nat by lia.
      by rewrite Hnnz. }
    apply list_elem_of_lookup. exists j. congruence. }
  unfold np_mean. destruct out as [|a out]; [by apply elem_of_nil in Hin|].
  by rewrite (np_sum_NaN (a :: out) (Finite 0) Hin).
Qed.

(** ** The further properties at concrete inputs *)

#[local] Instance by_tweet_id_trans : Transitive by_tweet_id.
Proof. intros a b c. unfold by_tweet_id. lia. Qed.

#[local] Instance by_tweet_id_total : Total by_tweet_id.
Proof. intros a b. unfold by_tweet_id. lia. Qed.

Lemma sort_by_tweet_id_perm (l : list body_row) : sort_by_tweet_id l ≡ₚ l.
Proof. apply merge_sort_Permutation. Qed.

Lemma sort_by_tweet_id_sorted (l : list body_row) :
  StronglySorted by_tweet_id (sort_by_tweet_id l).
Proof. apply StronglySorted_merge_sort; apply _. Qed.


Lemma gold_labels_key_error_witness :
  mkTweet "2" 0 ∈ unknown_candidate ∧
  verbose_labels (gold_answers one_gold_row) !! "2" = None ∧
  gold_labels ["Positive"] (verbose_labels (gold_answers one_gold_row))
              unknown_candidate = Raise KeyError.
Proof.
  assert (H1 : mkTweet "2" 0 ∈ unknown_candidate) by left.
  assert (H2 : split (mkTweet "2" 0) = 0 ∨ split (mkTweet "2" 0) = 1) by (by left).
  assert (H3 : verbose_labels (gold_answers one_gold_row) !! name (mkTweet "2" 0) = None)
    by reflexivity.
  assert (H4 : ∀ c' s, c' ∈ unknown_candidate →
                 verbose_labels (gold_answers one_gold_row) !! name c' = Some s →
                 s ∈ ["Positive"]).
  { intros c' s Hc'. apply list_elem_of_singleton in Hc' as ->. by rewrite H3. }
  split_and!; [exact H1|exact H3|].
  exact (gold_labels_key_error ["Positive"] (verbose_labels (gold_answers one_gold_row))
           unknown_candidate (mkTweet "2" 0) H1 H2 H3 H4).
Defined.

Lemma mv_unique_mode_witness :
  rows matrix_with_mode !! 0%nat = Some [1; 2; 2] ∧
  mv_at matrix_with_mode 0 = Ok 2.
Proof.
  assert (H1 : rows matrix_with_mode !! 0%nat = Some [1; 2; 2]) by reflexivity.
  assert (H2 : 2 ∈ row_votes [1; 2; 2]) by (right; left).
  assert (H3 : ∀ x, x ≠ 2 →
            (count_of x (row_votes [1; 2; 2]%Z) < count_of 2%Z (row_votes [1; 2; 2]%Z))%nat).
  { intros x Hx. change (row_votes [1; 2; 2]) with [1%Z; 2%Z; 2%Z].
    unfold count_of. rewrite !filter_cons, !filter_nil.
    repeat case_decide; simpl; lia. }
  split; [exact H1|]. exact (mv_unique_mode matrix_with_mode 0 [1; 2; 2] 2 H1 H2 H3).
Defined.

Lemma acc_in_unit_interval_witness :
  Forall (λ g, g ≠ 0) [1; 2] ∧
  (1 ≤ col_nnz matrix_with_empty_column 0)%nat ∧
  acc matrix_with_empty_column [1; 2] 0 = Ok (Finite (2 # 2)) ∧
  in_unit_interval (Finite (2 # 2)).
Proof.
  assert (H1 : Forall (λ g : Z, g ≠ 0) [1; 2]) by (repeat constructor; discriminate).
  assert (H2 : (1 ≤ col_nnz matrix_with_empty_column 0)%nat) by (vm_compute; lia).
  assert (H3 : acc matrix_with_empty_column [1; 2] 0 = Ok (Finite (2 # 2))) by reflexivity.
  split_and!; [exact H1|exact H2|exact H3|].
  exact (acc_in_unit_interval matrix_with_empty_column [1; 2] 0 _ H1 H2 H3).
Defined.

Lemma acc_of_empty_column_witness :
  Forall (λ g, g ≠ 0) [1; 2] ∧
  col_nnz matrix_with_empty_column 1 = 0%nat ∧
  acc matrix_with_empty_column [1; 2] 1 = Ok NaN.
Proof.
  assert (H1 : Forall (λ g : Z, g ≠ 0) [1; 2]) by (repeat constructor; discriminate).
  assert (H2 : ((shape matrix_with_empty_column).1 ≤ length [1; 2])%nat) by (simpl; lia).
  assert (H3 : col_nnz matrix_with_empty_column 1 = 0%nat) by reflexivity.
  split_and!; [exact H1|exact H3|].
  exact (acc_of_empty_column matrix_with_empty_column [1; 2] 1 H1 H2 H3).
Defined.

Lemma candidates_of_joined_frame_witness :
  (∀ l, sort_by_tweet_id l ≡ₚ l) ∧
  ∀ r, r ∈ candidate_labeled_tweets three_raw_answers two_gold_rows →
       ∃ c, c ∈ tweet_list sort_by_tweet_id
                  (candidate_labeled_tweets_indexed three_raw_answers two_gold_rows) ∧
            name c = str (tweet_id r).
Proof.
  split; [exact sort_by_tweet_id_perm|].
  exact (proj2 (candidates_of_joined_frame sort_by_tweet_id sort_by_tweet_id_perm
                  three_raw_answers two_gold_rows)).
Defined.

Lemma test_split_bound_witness :
  (∀ l, sort_by_tweet_id l ≡ₚ l) ∧
  10 * Z.of_nat (length (query_split
          (tweet_list sort_by_tweet_id
             (candidate_labeled_tweets_indexed three_raw_answers two_gold_rows)) 1))
  ≤ Z.of_nat (length (tweet_list sort_by_tweet_id
                        (candidate_labeled_tweets_indexed three_raw_answers two_gold_rows)))
    + 10.
Proof.
  split; [exact sort_by_tweet_id_perm|].
  exact (proj1 (test_split_bound sort_by_tweet_id sort_by_tweet_id_perm
                  three_raw_answers two_gold_rows)).
Defined.

Lemma three_raw_answers_one_body :
  ∀ ir1 ir2,
    ir1 ∈ candidate_labeled_tweets_indexed three_raw_answers two_gold_rows →
    ir2 ∈ candidate_labeled_tweets_indexed three_raw_answers two_gold_rows →
    tweet_id ir1.2 = tweet_id ir2.2 → tweet_body ir1.2 = tweet_body ir2.2.
Proof.
  assert (candidate_labeled_tweets_indexed three_raw_answers two_gold_rows =
          [ (0%nat, RawAnswer 2 "rain all day" 8 "Negative");
            (2%nat, RawAnswer 2 "rain all day" 9 "Negative");
            (1%nat, RawAnswer 1 "sunny again" 7 "Positive") ]) as -> by reflexivity.
  intros ir1 ir2 H1 H2.
  repeat (apply elem_of_cons in H1 as [->|H1]); [..|by apply elem_of_nil in H1];
    repeat (apply elem_of_cons in H2 as [->|H2]); try (by apply elem_of_nil in H2);
    simpl; congruence.
Qed.

Lemma one_candidate_per_tweet_witness :
  (∀ l, sort_by_tweet_id l ≡ₚ l) ∧
  (∀ l, StronglySorted by_tweet_id (sort_by_tweet_id l)) ∧
  ∃ ids, map name (tweet_list sort_by_tweet_id
                     (candidate_labeled_tweets_indexed three_raw_answers two_gold_rows))
         = map str ids ∧
         StronglySorted Z.lt ids ∧
         ∀ n, n ∈ ids ↔
              ∃ ir, ir ∈ candidate_labeled_tweets_indexed three_raw_answers two_gold_rows ∧
                    tweet_id ir.2 = n.
Proof.
  split_and!; [exact sort_by_tweet_id_perm|exact sort_by_tweet_id_sorted|].
  exact (one_candidate_per_tweet sort_by_tweet_id sort_by_tweet_id_perm
           sort_by_tweet_id_sorted
           (candidate_labeled_tweets_indexed three_raw_answers two_gold_rows)
           three_raw_answers_one_body).
Defined.

Lemma gold_labels_of_candidates_witness :
  (∀ l, sort_by_tweet_id l ≡ₚ l) ∧
  ∀ e, gold_labels (values (candidate_labeled_tweets three_raw_answers two_gold_rows))
                   (verbose_labels (gold_answers two_gold_rows))
                   (tweet_list sort_by_tweet_id
                      (candidate_labeled_tweets_indexed three_raw_answers two_gold_rows))
       = Raise e → e = ValueError.
Proof.
  split; [exact sort_by_tweet_id_perm|].
  exact (proj1 (gold_labels_of_candidates sort_by_tweet_id sort_by_tweet_id_perm
                  three_raw_answers two_gold_rows)).
Defined.

Lemma candidates_have_votes_witness :
  (∀ l, sort_by_tweet_id l ≡ₚ l) ∧
  mkTweet "1" 0 ∈ tweet_list sort_by_tweet_id
                    (candidate_labeled_tweets_indexed three_raw_answers two_gold_rows) ∧
  (worker_label_generator
     (build_wls (worker_labels (candidate_labeled_tweets three_raw_answers two_gold_rows)))
     (mkTweet "1" 0)).1 ≠ [].
Proof.
  assert (H : mkTweet "1" 0 ∈
              tweet_list sort_by_tweet_id
                (candidate_labeled_tweets_indexed three_raw_answers two_gold_rows))
    by (vm_compute; left).
  split_and!; [exact sort_by_tweet_id_perm|exact H|].
  exact (proj2 (candidates_have_votes sort_by_tweet_id sort_by_tweet_id_perm
                  three_raw_answers two_gold_rows (mkTweet "1" 0) H)).
Defined.

Lemma mean_accuracy_unit_witness :
  Forall (λ g, g ≠ 0) [1; 2] ∧
  (∀ j, (j < (shape matrix_with_mode).2)%nat → (1 ≤ col_nnz matrix_with_mode j)%nat) ∧
  ∃ a, mean_accuracy matrix_with_mode [1; 2] = Ok a ∧ in_unit_interval a.
Proof.
  assert (H1 : Forall (λ g : Z, g ≠ 0) [1; 2]) by (repeat constructor; discriminate).
  assert (H2 : ((shape matrix_with_mode).1 ≤ length [1; 2])%nat) by (simpl; lia).
  assert (H3 : (0 < (shape matrix_with_mode).2)%nat) by (simpl; lia).
  assert (H4 : ∀ j, (j < (shape matrix_with_mode).2)%nat →
                    (1 ≤ col_nnz matrix_with_mode j)%nat).
  { intros j Hj. simpl in Hj.
    destruct j as [|[|[|j]]]; [vm_compute; lia..|lia]. }
  split_and!; [exact H1|exact H4|].
  exact (mean_accuracy_unit matrix_with_mode [1; 2] H1 H2 H3 H4).
Defined.

Lemma mean_accuracy_of_empty_column_witness :
  Forall (λ g, g ≠ 0) [1; 2] ∧
  col_nnz matrix_with_empty_column 1 = 0%nat ∧
  mean_accuracy matrix_with_empty_column [1; 2] = Ok NaN.
Proof.
  assert (H1 : Forall (λ g : Z, g ≠ 0) [1; 2]) by (repeat constructor; discriminate).
  assert (H2 : ((shape matrix_with_empty_column).1 ≤ length [1; 2])%nat) by (simpl; lia).
  assert (H3 : (1 < (shape matrix_with_empty_column).2)%nat) by (simpl; lia).
  assert (H4 : col_nnz matrix_with_empty_column 1 = 0%nat) by reflexivity.
  split_and!; [exact H1|exact H4|].
  exact (mean_accuracy_of_empty_column matrix_with_empty_column [1; 2] 1 H1 H2 H3 H4).
Defined.
